(** * Surface-growth notebook (Edwards-Wilkinson / Kardar-Parisi-Zhang)

    A shallow embedding of the finite-difference time loops and of the
    bounded-choice noise construction of the EW/KPZ notebook, together with
    the library operations those cells call ([scipy.ndimage.laplace],
    [numpy.gradient], NumPy broadcasting, [Generator.shuffle]).

    Heights are modelled as exact rationals: unless it says otherwise, a
    statement below is about exact arithmetic, the idealisation of the
    notebook's float64 values.  The module [Float64] repeats the KPZ loop
    body on binary64 values, to show where rounding departs from it. *)

From stdpp Require Import base list.
From Stdlib Require Import QArith Qround Lqa ZArith Lia.
From Stdlib Require Import Floats.PrimFloat.

(** A decimal literal of a binary64 value denotes the nearest representable
    value, as it does in Python. *)
Set Warnings "-inexact-float".

Open Scope Q_scope.

(** ** Exceptions and results *)

Inductive exception := ValueError | IndexError.

Inductive result (A : Type) :=
| Ok (a : A)
| Raise (e : exception).
Arguments Ok {A} a.
Arguments Raise {A} e.

Definition bind {A B} (r : result A) (k : A -> result B) : result B :=
  match r with
  | Ok a => k a
  | Raise e => Raise e
  end.

Notation "'let*' x := r 'in' k" := (bind r (fun x => k))
  (at level 10, x name, r at level 100, k at level 200).

(** ** Dense two-dimensional arrays

    A NumPy array is a shape and a C-ordered (row-major) buffer. *)

Record ndarray2 := Array2 { shape0 : nat; shape1 : nat; data : list Q }.

Definition wf2 (a : ndarray2) : Prop :=
  length (data a) = (shape0 a * shape1 a)%nat.

Definition same_shape (a b : ndarray2) : Prop :=
  shape0 a = shape0 b /\ shape1 a = shape1 b.

(** [a[i, j]] *)
Definition get (a : ndarray2) (i j : nat) : Q :=
  nth (i * shape1 a + j) (data a) 0.

(** A fresh array of shape [(r, c)] whose cell [(i, j)] holds [f i j]. *)
Definition tabulate (r c : nat) (f : nat -> nat -> Q) : ndarray2 :=
  Array2 r c (map (fun k => f (k / c)%nat (k mod c)%nat) (seq 0 (r * c))).

(** [np.full((r, c), x)] *)
Definition full (r c : nat) (x : Q) : ndarray2 := Array2 r c (replicate (r * c) x).

Definition Qsum (l : list Q) : Q := foldr Qplus 0 l.

(** [np.sum(a)] *)
Definition np_sum (a : ndarray2) : Q := Qsum (data a).

(** Cell-wise equality of two arrays in exact arithmetic. *)
Definition array_eq (a b : ndarray2) : Prop :=
  same_shape a b /\
  forall i j, (i < shape0 a)%nat -> (j < shape1 a)%nat -> get a i j == get b i j.

(** ** [scipy.ndimage] boundary modes and [correlate1d] *)

Inductive mode := Reflect | Constant | Nearest | Mirror | Wrap.

(** Value of a line of length [n] at the (possibly out-of-range) position
    [p], extended according to the boundary mode:
    - reflect  [d c b a | a b c d | d c b a]
    - constant [k k k k | a b c d | k k k k]
    - nearest  [a a a a | a b c d | d d d d]
    - mirror   [d c b | a b c d | c b a]
    - wrap     [a b c d | a b c d | a b c d] *)
Definition extend (m : mode) (cval : Q) (n : nat) (line : nat -> Q) (p : Z) : Q :=
  let N := Z.of_nat n in
  if ((0 <=? p) && (p <? N))%Z then line (Z.to_nat p)
  else match m with
  | Reflect =>
      let q := (p mod (2 * N))%Z in
      if (q <? N)%Z then line (Z.to_nat q) else line (Z.to_nat (2 * N - 1 - q))
  | Constant => cval
  | Nearest => if (p <? 0)%Z then line 0%nat else line (n - 1)%nat
  | Mirror =>
      if (N <=? 1)%Z then line 0%nat
      else let q := (p mod (2 * N - 2))%Z in
           if (q <? N)%Z then line (Z.to_nat q) else line (Z.to_nat (2 * N - 2 - q))
  | Wrap => line (Z.to_nat (p mod N))
  end.

(** One output sample of a correlation with [weights] (origin 0):
    [out[i] = sum_k weights[k] * line[i + k - len(weights) // 2]]. *)
Definition correlate_line (weights : list Q) (m : mode) (cval : Q)
    (n : nat) (line : nat -> Q) (i : nat) : Q :=
  Qsum (imap (fun k w =>
          w * extend m cval n line
                (Z.of_nat i + Z.of_nat k - Z.of_nat (length weights / 2))) weights).

Inductive axis := Axis0 | Axis1.

(** [correlate1d(input, weights, axis, mode=mode, cval=cval, origin=0)] *)
Definition correlate1d (input : ndarray2) (weights : list Q) (ax : axis)
    (m : mode) (cval : Q) : ndarray2 :=
  let r := shape0 input in
  let c := shape1 input in
  match ax with
  | Axis0 => tabulate r c (fun i j =>
               correlate_line weights m cval r (fun i' => get input i' j) i)
  | Axis1 => tabulate r c (fun i j =>
               correlate_line weights m cval c (fun j' => get input i j') j)
  end.

(** Cell-wise combination of two arrays already known to share a shape
    (the in-place [output += tmp] of [generic_laplace]). *)
Definition zip_with2 (f : Q -> Q -> Q) (a b : ndarray2) : ndarray2 :=
  tabulate (shape0 a) (shape1 a) (fun i j => f (get a i j) (get b i j)).

Definition derivative2 (input : ndarray2) (ax : axis) (m : mode) (cval : Q) : ndarray2 :=
  correlate1d input [1; -2 # 1; 1] ax m cval.

Definition generic_laplace (input : ndarray2) (m : mode) (cval : Q) : ndarray2 :=
  let output := derivative2 input Axis0 m cval in
  let tmp := derivative2 input Axis1 m cval in
  zip_with2 Qplus output tmp.

(** [scipy.ndimage.laplace(input)]: the notebook passes no [mode], so the
    library default [mode='reflect', cval=0.0] applies. *)
Definition laplace (input : ndarray2) : ndarray2 := generic_laplace input Reflect 0.

(** ** [numpy.gradient] (unit spacing, [edge_order=1]) *)

Definition gradient_line (n : nat) (line : nat -> Q) (i : nat) : Q :=
  if (i =? 0)%nat then line 1%nat - line 0%nat
  else if (i =? n - 1)%nat then line (n - 1)%nat - line (n - 2)%nat
  else (line (i + 1)%nat - line (i - 1)%nat) / 2.

(** [np.gradient(f)] returns the list [[d/d axis0, d/d axis1]]; it raises
    [ValueError] when an axis has fewer than [edge_order + 1 = 2] samples. *)
Definition grad0 (f : ndarray2) : ndarray2 :=
  tabulate (shape0 f) (shape1 f)
    (fun i j => gradient_line (shape0 f) (fun i' => get f i' j) i).

Definition grad1 (f : ndarray2) : ndarray2 :=
  tabulate (shape0 f) (shape1 f)
    (fun i j => gradient_line (shape1 f) (fun j' => get f i j') j).

Definition gradient (f : ndarray2) : result (ndarray2 * ndarray2) :=
  if ((shape0 f <? 2) || (shape1 f <? 2))%nat then Raise ValueError
  else Ok (grad0 f, grad1 f).

(** ** Broadcasting arithmetic *)

Definition broadcast_dim (a b : nat) : option nat :=
  if (a =? b)%nat then Some a
  else if (a =? 1)%nat then Some b
  else if (b =? 1)%nat then Some a
  else None.

(** Read of a cell through a broadcast view: an axis of length 1 is
    stretched. *)
Definition bget (a : ndarray2) (i j : nat) : Q :=
  get a (if (shape0 a =? 1)%nat then 0%nat else i)
        (if (shape1 a =? 1)%nat then 0%nat else j).

(** [a + b] *)
Definition np_add (a b : ndarray2) : result ndarray2 :=
  match broadcast_dim (shape0 a) (shape0 b), broadcast_dim (shape1 a) (shape1 b) with
  | Some r, Some c => Ok (tabulate r c (fun i j => bget a i j + bget b i j))
  | _, _ => Raise ValueError
  end.

(** [k * a] for a scalar [k] *)
Definition scalar_mul (k : Q) (a : ndarray2) : ndarray2 :=
  tabulate (shape0 a) (shape1 a) (fun i j => k * get a i j).

(** [a ** 2] *)
Definition square (a : ndarray2) : ndarray2 :=
  tabulate (shape0 a) (shape1 a) (fun i j => get a i j ^ 2).

(** ** The four time-loop bodies

    Each loop reads the previous layer [h = film[i-1,:,:]] (and, where
    present, the noise slice [eta = noise[i,:,:]]) and produces the value
    assigned to [film[i,:,:]]. *)

(** Cell diagnostic-tuesday:
    [d_film = v*laplace(h); film[i] = h + d_film]. *)
Definition ew_step (v : Q) (h : ndarray2) : result ndarray2 :=
  let d_film := scalar_mul v (laplace h) in
  np_add h d_film.

(** Cell collectible-bearing:
    [d_film = v*laplace(h) + eta; film[i] = h + d_film]. *)
Definition ew_noise_step (v : Q) (h eta : ndarray2) : result ndarray2 :=
  let* d_film := np_add (scalar_mul v (laplace h)) eta in
  np_add h d_film.

(** [g2_film = g_film[0]**2 + g_film[1]**2] *)
Definition grad_squared (h : ndarray2) : result ndarray2 :=
  let* g_film := gradient h in
  np_add (square (fst g_film)) (square (snd g_film)).

(** Cell clinical-prior:
    [d_film = v*l_film + l/2*g2_film; film[i] = h + d_film]. *)
Definition kpz_step (v l : Q) (h : ndarray2) : result ndarray2 :=
  let l_film := laplace h in
  let* g2_film := grad_squared h in
  let* d_film := np_add (scalar_mul v l_film) (scalar_mul (l / 2) g2_film) in
  np_add h d_film.

(** Cell removed-nothing:
    [d_film = v*l_film + l/2*g2_film + eta; film[i] = h + d_film]. *)
Definition kpz_noise_step (v l : Q) (h eta : ndarray2) : result ndarray2 :=
  let l_film := laplace h in
  let* g2_film := grad_squared h in
  let* s := np_add (scalar_mul v l_film) (scalar_mul (l / 2) g2_film) in
  let* d_film := np_add s eta in
  np_add h d_film.

(** ** Three-dimensional arrays: the film and the noise

    [film] and [noise] have shape [(T, L, L)]; layer [i] occupies the
    buffer positions [i*L*L .. (i+1)*L*L - 1]. *)

Record ndarray3 := Array3 { dim0 : nat; dim1 : nat; dim2 : nat; data3 : list Q }.

Definition wf3 (a : ndarray3) : Prop :=
  length (data3 a) = (dim0 a * (dim1 a * dim2 a))%nat.

(** [np.full((t, r, c), x)]; [np.zeros] and [-np.ones] are instances. *)
Definition full3 (t r c : nat) (x : Q) : ndarray3 :=
  Array3 t r c (replicate (t * (r * c)) x).

(** [a[i,:,:]] read as a value. *)
Definition slice (a : ndarray3) (i : nat) : result ndarray2 :=
  let n := (dim1 a * dim2 a)%nat in
  if (i <? dim0 a)%nat
  then Ok (Array2 (dim1 a) (dim2 a) (take n (drop (i * n) (data3 a))))
  else Raise IndexError.

Definition broadcastable_to (s t : nat) : bool := ((s =? t) || (s =? 1))%nat.

(** [a[i,:,:] = x]: the value is broadcast to the layer's shape. *)
Definition set_slice (a : ndarray3) (i : nat) (x : ndarray2) : result ndarray3 :=
  let n := (dim1 a * dim2 a)%nat in
  if (i <? dim0 a)%nat then
    if broadcastable_to (shape0 x) (dim1 a) && broadcastable_to (shape1 x) (dim2 a)
    then Ok (Array3 (dim0 a) (dim1 a) (dim2 a)
               (take (i * n) (data3 a)
                ++ data (tabulate (dim1 a) (dim2 a) (bget x))
                ++ drop ((i + 1) * n) (data3 a)))
    else Raise ValueError
  else Raise IndexError.

(** [a[m:, :] = x] on a two-dimensional array. *)
Definition set_rows_from2 (a : ndarray2) (m : nat) (x : Q) : ndarray2 :=
  Array2 (shape0 a) (shape1 a)
    (imap (fun k y => if (m <=? k / shape1 a)%nat then x else y) (data a)).

(** [a[:, m:, :] = x] on a three-dimensional array. *)
Definition set_rows_from3 (a : ndarray3) (m : nat) (x : Q) : ndarray3 :=
  Array3 (dim0 a) (dim1 a) (dim2 a)
    (imap (fun k y => if (m <=? (k / dim2 a) mod dim1 a)%nat then x else y) (data3 a)).

(** [np.sum(a[1:,:,:])] *)
Definition np_sum_tail (a : ndarray3) : Q :=
  Qsum (drop (dim1 a * dim2 a) (data3 a)).

(** [np.sum(a)] for a three-dimensional array. *)
Definition np_sum3 (a : ndarray3) : Q := Qsum (data3 a).

(** ** Random generators

    The interface of a NumPy [Generator] as the notebook uses it.  The bit
    generator behind [default_rng] is left abstract; [random_interval g m]
    is the bounded draw used by [shuffle] and returns an integer in
    [[0, m]]. *)

Class Generator := {
  rng : Type;
  default_rng : N -> rng;
  random_interval : rng -> nat -> nat * rng;
  next_double : rng -> Q * rng;
  next_normal : rng -> Q * rng;
  random_interval_le : forall g m, (fst (random_interval g m) <= m)%nat
}.

(** A small linear congruential generator, standing in for a concrete bit
    generator in worked examples (its normal draw reuses the uniform one:
    only the interface matters there). *)
Definition lcg_next (g : N) : N :=
  ((6364136223846793005 * g + 1442695040888963407) mod 2 ^ 64)%N.

Definition lcg_interval (g : N) (m : nat) : nat * N :=
  (N.to_nat ((lcg_next g / 2 ^ 32) mod N.of_nat (S m))%N, lcg_next g).

Definition lcg_double (g : N) : Q * N :=
  (Z.of_N (lcg_next g / 2 ^ 32)%N # 4294967296, lcg_next g).

#[export, refine] Instance lcg_generator : Generator := {
  rng := N;
  default_rng := fun seed => seed;
  random_interval := lcg_interval;
  next_double := lcg_double;
  next_normal := lcg_double
}.
Proof.
  abstract (intros g m; unfold lcg_interval; cbn [fst];
            assert (H : ((lcg_next g / 2 ^ 32) mod N.of_nat (S m) < N.of_nat (S m))%N)
              by (apply N.mod_lt; lia);
            lia).
Defined.

Section Notebook.

Context {Gen : Generator}.

(** *** [Generator.shuffle]

    A [flatiter] takes the generic path of [shuffle]:
    [for i in reversed(range(1, len(x))): j = random_interval(i);
     x[i], x[j] = x[j], x[i]]. *)

Definition swap (x : list Q) (i j : nat) : result (list Q) :=
  match x !! j, x !! i with
  | Some xj, Some xi => Ok (<[j := xi]> (<[i := xj]> x))
  | _, _ => Raise IndexError
  end.

Fixpoint shuffle_from (i : nat) (g : rng) (x : list Q) : result (rng * list Q) :=
  match i with
  | O => Ok (g, x)
  | S i' =>
      let (j, g') := random_interval g i in
      let* x' := swap x i j in
      shuffle_from i' g' x'
  end.

Definition shuffle (g : rng) (x : list Q) : result (rng * list Q) :=
  shuffle_from (length x - 1) g x.

(** [n] successive draws. *)
Fixpoint draws (n : nat) (next : rng -> Q * rng) (g : rng) : list Q * rng :=
  match n with
  | O => ([], g)
  | S n' =>
      let (x, g') := next g in
      let (xs, g'') := draws n' next g' in
      (x :: xs, g'')
  end.

(** [g.uniform(low, high, size=(r, c))]: the range [high - low] is checked
    first and a negative one raises [ValueError]; each sample is
    [low + (high - low) * next_double]. *)
Definition uniform (g : rng) (low high : Q) (r c : nat) : result (ndarray2 * rng) :=
  if Qlt_le_dec (high - low) 0 then Raise ValueError
  else
    let (us, g') := draws (r * c) next_double g in
    Ok (Array2 r c (map (fun u => low + (high - low) * u) us), g').

(** [g.normal(size=(r, c))] *)
Definition normal (g : rng) (r c : nat) : ndarray2 * rng :=
  let (xs, g') := draws (r * c) next_normal g in
  (Array2 r c xs, g').

(** *** The notebook's global namespace *)

Record kernel := Kernel {
  L : nat;
  T : nat;
  v : Q;
  l : Q;
  max_starting_height : Q;
  seed_init : N;
  seed_random : N;
  shuffler : rng;
  choice : ndarray2;
  gaussian : ndarray2;
  film : ndarray3;
  noise : ndarray3
}.

Definition with_shuffler (k : kernel) (g : rng) : kernel :=
  Kernel (L k) (T k) (v k) (l k) (max_starting_height k) (seed_init k)
         (seed_random k) g (choice k) (gaussian k) (film k) (noise k).

Definition with_choice (k : kernel) (a : ndarray2) : kernel :=
  Kernel (L k) (T k) (v k) (l k) (max_starting_height k) (seed_init k)
         (seed_random k) (shuffler k) a (gaussian k) (film k) (noise k).

Definition with_gaussian (k : kernel) (a : ndarray2) : kernel :=
  Kernel (L k) (T k) (v k) (l k) (max_starting_height k) (seed_init k)
         (seed_random k) (shuffler k) (choice k) a (film k) (noise k).

Definition with_film (k : kernel) (a : ndarray3) : kernel :=
  Kernel (L k) (T k) (v k) (l k) (max_starting_height k) (seed_init k)
         (seed_random k) (shuffler k) (choice k) (gaussian k) a (noise k).

Definition with_noise (k : kernel) (a : ndarray3) : kernel :=
  Kernel (L k) (T k) (v k) (l k) (max_starting_height k) (seed_init k)
         (seed_random k) (shuffler k) (choice k) (gaussian k) (film k) a.

(** *** Statements: state passing with exceptions

    A statement maps the namespace to an outcome and the namespace it
    leaves behind; an exception keeps whatever was assigned before it. *)

Definition M (A : Type) : Type := kernel -> result A * kernel.

Definition ret {A} (a : A) : M A := fun k => (Ok a, k).

Definition mbind {A B} (m : M A) (f : A -> M B) : M B :=
  fun k =>
    match m k with
    | (Ok a, k') => f a k'
    | (Raise e, k') => (Raise e, k')
    end.

(** Evaluation of an expression: it may raise, it assigns nothing. *)
Definition eval {A} (e : kernel -> result A) : M A := fun k => (e k, k).

Definition assign (upd : kernel -> kernel) : M unit := fun k => (Ok tt, upd k).

Definition seq_stmt (m1 m2 : M unit) : M unit := mbind m1 (fun _ => m2).

(** [for i in idx: body(i)] *)
Fixpoint for_each (idx : list nat) (body : nat -> M unit) : M unit :=
  match idx with
  | [] => ret tt
  | i :: idx' => seq_stmt (body i) (for_each idx' body)
  end.

(** [film = np.zeros((T,L,L));
     film[0,:,:] = np.random.default_rng(seed=seed_init).uniform(0, max_starting_height, size=(L,L))]
    The right-hand side of the second statement is evaluated before the
    store into [film[0,:,:]]. *)
Definition init_film : M unit :=
  seq_stmt
    (assign (fun k => with_film k (full3 (T k) (L k) (L k) 0)))
    (mbind
       (eval (fun k =>
          let* u := uniform (default_rng (seed_init k)) 0 (max_starting_height k)
                      (L k) (L k) in
          set_slice (film k) 0 (fst u)))
       (fun f => assign (fun k => with_film k f))).

(** [shuffler = np.random.default_rng(seed=seed_random);
     noise = -np.ones((T,L,L)); noise[:,L//2:,:] = 1;
     shuffler.shuffle(noise[1:,:,:].flat)]
    The shuffled view [noise[1:,:,:].flat] is the buffer past the first
    layer, and the swaps write through to [noise]. *)
Definition make_noise : M unit :=
  seq_stmt (assign (fun k => with_shuffler k (default_rng (seed_random k))))
  (seq_stmt (assign (fun k => with_noise k (full3 (T k) (L k) (L k) (-1))))
  (seq_stmt (assign (fun k => with_noise k (set_rows_from3 (noise k) (L k / 2) 1)))
  (mbind
     (eval (fun k =>
        shuffle (shuffler k) (drop (dim1 (noise k) * dim2 (noise k)) (data3 (noise k)))))
     (fun gx => assign (fun k =>
        with_noise (with_shuffler k (fst gx))
          (Array3 (dim0 (noise k)) (dim1 (noise k)) (dim2 (noise k))
             (take (dim1 (noise k) * dim2 (noise k)) (data3 (noise k)) ++ snd gx))))))).

(** Loop bodies: the right-hand side is evaluated from [film[i-1,:,:]] (and
    [noise[i,:,:]]), then assigned to [film[i,:,:]]. *)
Definition assign_layer (i : nat) (step : kernel -> ndarray2 -> result ndarray2) : M unit :=
  mbind
    (eval (fun k =>
       let* h := slice (film k) (i - 1) in
       let* h' := step k h in
       set_slice (film k) i h'))
    (fun f => assign (fun k => with_film k f)).

Definition ew_body (i : nat) : M unit :=
  assign_layer i (fun k h => ew_step (v k) h).

Definition ew_noise_body (i : nat) : M unit :=
  assign_layer i (fun k h =>
    let* eta := slice (noise k) i in ew_noise_step (v k) h eta).

Definition kpz_body (i : nat) : M unit :=
  assign_layer i (fun k h => kpz_step (v k) (l k) h).

Definition kpz_noise_body (i : nat) : M unit :=
  assign_layer i (fun k h =>
    let* eta := slice (noise k) i in kpz_noise_step (v k) (l k) h eta).

(** [for i in range(1,T): body(i)] *)
Definition time_loop (body : nat -> M unit) : M unit :=
  fun k => for_each (seq 1 (T k - 1)) body k.

(** Cell noble-question. *)
Definition cell_noble_question : M unit :=
  seq_stmt (assign (fun k => with_choice k (full (L k) (L k) (-1))))
  (seq_stmt (assign (fun k => with_choice k (set_rows_from2 (choice k) (L k / 2) 1)))
  (seq_stmt (assign (fun k => with_shuffler k (default_rng (seed_random k))))
  (seq_stmt
     (mbind (eval (fun k => shuffle (shuffler k) (data (choice k))))
        (fun gx => assign (fun k =>
           with_choice (with_shuffler k (fst gx))
             (Array2 (shape0 (choice k)) (shape1 (choice k)) (snd gx)))))
     (assign (fun k =>
        with_gaussian k (fst (normal (default_rng (seed_random k)) (L k) (L k)))))))).

(** The plotting code that ends each simulation cell:
    [for i in range(4): for j in range(4): ax[i][j].imshow(film[i*4+j,:,:], ...)].
    Only the reads of the sixteen layers [film[0], .., film[15]] matter
    here: they raise [IndexError] on a film with fewer layers.  The [print]
    statements that follow read [film[0,:,:]] and [film[-1,:,:]], which
    exist once the sixteen reads have succeeded. *)
Definition read_layer (q : nat) : M unit :=
  mbind (eval (fun k => slice (film k) q)) (fun _ => ret tt).

Definition plot_film : M unit :=
  for_each (flat_map (fun i => map (fun j => (i * 4 + j)%nat) (seq 0 4)) (seq 0 4))
           read_layer.

(** Cell diagnostic-tuesday (EW, no noise). *)
Definition cell_diagnostic_tuesday : M unit :=
  seq_stmt init_film (seq_stmt (time_loop ew_body) plot_film).

(** Cell collectible-bearing (EW with bounded noise). *)
Definition cell_collectible_bearing : M unit :=
  seq_stmt init_film
    (seq_stmt make_noise (seq_stmt (time_loop ew_noise_body) plot_film)).

(** Cell clinical-prior (KPZ, no noise). *)
Definition cell_clinical_prior : M unit :=
  seq_stmt init_film (seq_stmt (time_loop kpz_body) plot_film).

(** Cell removed-nothing (KPZ with bounded noise). *)
Definition cell_removed_nothing : M unit :=
  seq_stmt init_film
    (seq_stmt make_noise (seq_stmt (time_loop kpz_noise_body) plot_film)).

End Notebook.

(** The noise slice can be broadcast against a field of at least two rows
    and two columns. *)
Definition noise_fits (h eta : ndarray2) : bool :=
  broadcastable_to (shape0 eta) (shape0 h) && broadcastable_to (shape1 eta) (shape1 h).

(** ** Stencils used to state what the Laplacian computes *)

(** Five-point stencil whose out-of-grid neighbour is the edge cell itself
    (half-sample symmetric reflection). *)
Definition reflect_stencil (a : ndarray2) (i j : nat) : Q :=
  (if (i =? 0)%nat then get a i j else get a (i - 1)%nat j)
  + (if (i + 1 =? shape0 a)%nat then get a i j else get a (i + 1)%nat j)
  + (if (j =? 0)%nat then get a i j else get a i (j - 1)%nat)
  + (if (j + 1 =? shape1 a)%nat then get a i j else get a i (j + 1)%nat)
  - 4 * get a i j.

(** The specification's five-point stencil with periodic (toroidal)
    wraparound: the out-of-grid neighbour is the cell on the opposite
    edge. *)
Definition periodic_stencil (a : ndarray2) (i j : nat) : Q :=
  get a ((i + shape0 a - 1) mod shape0 a)%nat j + get a ((i + 1) mod shape0 a)%nat j
  + get a i ((j + shape1 a - 1) mod shape1 a)%nat + get a i ((j + 1) mod shape1 a)%nat
  - 4 * get a i j.

(** The value of [g2_film] when [np.gradient] succeeds. *)
Definition grad_squared_value (h : ndarray2) : ndarray2 :=
  zip_with2 Qplus (square (grad0 h)) (square (grad1 h)).

(** The value of [g2_film] at one cell, when [np.gradient] succeeds. *)
Definition squared_gradient_at (field : ndarray2) (i j : nat) : Q :=
  gradient_line (shape0 field) (fun i' => get field i' j) i ^ 2
  + gradient_line (shape1 field) (fun j' => get field i j') j ^ 2.

(** ** The specification's update rule

    [newField = field + nu*Laplacian(field) + (lambda/2)*squaredGradient(field)
    + noise], the squared-gradient term being absent when [lambda = 0].
    The rule is written cell by cell from differences of the field's own
    samples; none of the library operations of the loop bodies is used. *)

(** Partial derivative of a line of [n] samples at position [i], as the
    difference quotient between the nearest samples on either side that
    exist: [(line[i+1] - line[i-1]) / 2] inside the line,
    [line[1] - line[0]] and [line[n-1] - line[n-2]] at its two ends. *)
Definition slope (n : nat) (line : nat -> Q) (i : nat) : Q :=
  let lo := (i - 1)%nat in
  let hi := Nat.min (i + 1) (n - 1) in
  (line hi - line lo) / inject_Z (Z.of_nat (hi - lo)).

(** Sum of the squared partial derivatives along both axes at one cell. *)
Definition squared_slopes (field : ndarray2) (i j : nat) : Q :=
  slope (shape0 field) (fun i' => get field i' j) i ^ 2
  + slope (shape1 field) (fun j' => get field i j') j ^ 2.

(** The rule at cell [(i, j)], for a given five-point Laplacian stencil. *)
Definition update_rule (stencil : ndarray2 -> nat -> nat -> Q)
    (field : ndarray2) (nu lambda : Q) (noise : ndarray2) (i j : nat) : Q :=
  if Qeq_bool lambda 0
  then get field i j + nu * stencil field i j + get noise i j
  else get field i j + nu * stencil field i j
       + (lambda / 2) * squared_slopes field i j + get noise i j.

(** The outcome [r] of a loop body is a new array of the field's shape that
    holds the rule's value at every cell. *)
Definition computes (stencil : ndarray2 -> nat -> nat -> Q)
    (r : result ndarray2) (field : ndarray2) (nu lambda : Q) (noise : ndarray2)
    : Prop :=
  exists h', r = Ok h' /\ wf2 h' /\ same_shape h' field /\
    forall i j, (i < shape0 field)%nat -> (j < shape1 field)%nat ->
      get h' i j == update_rule stencil field nu lambda noise i j.

(** ** Flat and perturbed fields (the specification's test scenarios) *)

(** [field[i0, j0] = y] on a copy of [a]. *)
Definition perturb (a : ndarray2) (i0 j0 : nat) (y : Q) : ndarray2 :=
  Array2 (shape0 a) (shape1 a) (<[(i0 * shape1 a + j0)%nat := y]> (data a)).

(** [(i, j)] is one of the (up to four) in-grid neighbours of [(i0, j0)]. *)
Definition adjacent (i0 j0 i j : nat) : Prop :=
  (j = j0 /\ (i = S i0 \/ S i = i0)) \/ (i = i0 /\ (j = S j0 \/ S j = j0)).

(** All cells hold the same height. *)
Definition flat (a : ndarray2) : Prop :=
  forall i j, (i < shape0 a)%nat -> (j < shape1 a)%nat ->
    get a i j == get a 0%nat 0%nat.

(** ** Sample fields *)

(** A 3x3 field with a single raised corner. *)
Definition corner3 : ndarray2 := Array2 3 3 [1; 0; 0; 0; 0; 0; 0; 0; 0].

(** A 2x2 field with distinct heights. *)
Definition ramp2 : ndarray2 := Array2 2 2 [1; 2; 3; 5].

(** A 2x3 (non-square) field. *)
Definition slab23 : ndarray2 := Array2 2 3 [1; 2; 4; 0; 3; 5].

(** Entry of row [i] after [a[m:] = 1] on an all [-1] array. *)
Definition sign_from (m i : nat) : Q := if (m <=? i)%nat then 1 else -1.

(** The noise array before shuffling: [-np.ones((t,n,n))] with
    [noise[:, n//2:, :] = 1]. *)
Definition signed_noise (t n : nat) : ndarray3 :=
  set_rows_from3 (full3 t n n (-1)) (n / 2) 1.

(** The choice array before shuffling. *)
Definition signed_choice (n : nat) : ndarray2 :=
  set_rows_from2 (full n n (-1)) (n / 2) 1.

(** [np.sum(a[i,:,:])] *)
Definition np_sum_layer (a : ndarray3) (i : nat) : Q :=
  Qsum (take (dim1 a * dim2 a) (drop (i * (dim1 a * dim2 a)) (data3 a))).

(** Two namespaces agree on what the noise construction reads: the grid
    size, the number of steps and the noise seed. *)
Definition same_noise_inputs {Gen : Generator} (k1 k2 : kernel) : Prop :=
  L k1 = L k2 /\ T k1 = T k2 /\ seed_random k1 = seed_random k2.

(** [film] and [noise] are bound to well-formed arrays of shape
    [(T, L, L)], as the head of every simulation cell leaves them. *)
Definition layers_ready {Gen : Generator} (k : kernel) : Prop :=
  wf3 (film k) /\ wf3 (noise k) /\
  (dim0 (film k) = T k /\ dim1 (film k) = L k /\ dim2 (film k) = L k) /\
  (dim0 (noise k) = T k /\ dim1 (noise k) = L k /\ dim2 (noise k) = L k).

(** A namespace over the linear congruential generator, as left by the
    parameter cell for grid size [n], [t] time steps and noise seed [seed]. *)
Definition demo_kernel (n t : nat) (seed : N) : kernel (Gen := lcg_generator) :=
  Kernel n t (1 # 10) (1 # 20) 10 7%N seed 0%N
         (full 0 0 0) (full 0 0 0) (full3 0 0 0 0) (full3 0 0 0 0).

(** A sample namespace as a simulation cell finds it at the head of its time
    loop: a 2x2 grid, three time steps, the film's first layer set and the
    noise array built. *)
Definition demo_ready : kernel (Gen := lcg_generator) :=
  Kernel 2 3 (1 # 10) (1 # 20) 10 7%N 5%N 0%N
         (full 0 0 0) (full 0 0 0)
         (Array3 3 2 2 [1; 2; 3; 5; 0; 0; 0; 0; 0; 0; 0; 0])
         (Array3 3 2 2 [-1; -1; 1; 1; 1; -1; 1; -1; -1; 1; -1; 1]).

(** [a + c] for a scalar [c]: the whole surface raised by [c]. *)
Definition scalar_add (a : ndarray2) (c : Q) : ndarray2 :=
  tabulate (shape0 a) (shape1 a) (fun i j => get a i j + c).

(** An entry of the bounded-choice noise. *)
Definition is_sign (x : Q) : Prop := x = -1 \/ x = 1.

(** ** The dice notebook: roll four dice, reroll the ones, sum the three
    largest

    Integer arrays are lists of [Z]; the rolls drawn by [rng.integers] are
    an argument. *)

(** [a[lo:hi]] for non-negative bounds: out-of-range bounds are clamped. *)
Definition py_slice (a : list Z) (lo hi : nat) : list Z :=
  take (hi - lo) (drop lo a).

(** [for i in idx: if rerolled[i] == 1: rerolled[i] = all_rolls[i + half]] *)
Fixpoint reroll_loop (idx : list nat) (all_rolls rerolled : list Z) (half : nat)
    : result (list Z) :=
  match idx with
  | [] => Ok rerolled
  | i :: idx' =>
      match rerolled !! i with
      | None => Raise IndexError
      | Some x =>
          if (x =? 1)%Z then
            match all_rolls !! (i + half)%nat with
            | None => Raise IndexError
            | Some y => reroll_loop idx' all_rolls (<[i := y]> rerolled) half
            end
          else reroll_loop idx' all_rolls rerolled half
      end
  end.

(** [np.vstack] of one-dimensional arrays: they must share their length. *)
Definition vstack (rows : list (list Z)) : result (list (list Z)) :=
  match rows with
  | [] => Raise ValueError
  | r :: rs =>
      if forallb (fun r' => (length r' =? length r)%nat) rs
      then Ok rows else Raise ValueError
  end.

Definition column (stack : list (list Z)) (j : nat) : list Z :=
  map (fun r => nth j r 0%Z) stack.

Definition ncols (stack : list (list Z)) : nat :=
  match stack with
  | [] => 0%nat
  | r :: _ => length r
  end.

(** [np.sum(stack, axis=0)] *)
Definition sum_axis0 (stack : list (list Z)) : list Z :=
  map (fun j => foldr Z.add 0%Z (column stack j)) (seq 0 (ncols stack)).

(** [np.min(stack, axis=0)] *)
Definition min_axis0 (stack : list (list Z)) : list Z :=
  map (fun j => match column stack j with
                | [] => 0%Z
                | x :: xs => foldr Z.min x xs
                end) (seq 0 (ncols stack)).

(** The processing of [total_rolls] rolls shared by both dice cells. *)
Definition dice_sums (total_rolls : nat) (all_rolls : list Z) : result (list Z) :=
  let dice := py_slice all_rolls 0 (total_rolls / 2) in
  let* rerolled :=
    reroll_loop (seq 0 (total_rolls / 2)) all_rolls dice (total_rolls / 2) in
  let d1 := py_slice rerolled 0 (total_rolls / 8) in
  let d2 := py_slice rerolled (total_rolls / 8) (2 * total_rolls / 8) in
  let d3 := py_slice rerolled (2 * total_rolls / 8) (3 * total_rolls / 8) in
  let d4 := py_slice rerolled (3 * total_rolls / 8) (4 * total_rolls / 8) in
  let* stack := vstack [d1; d2; d3; d4] in
  Ok (zip_with Z.sub (sum_axis0 stack) (min_axis0 stack)).


(** One pass of the second dice cell's loop: [total_rolls = samples*4]. *)
Definition dice_convergence_pass (samples : nat) (all_rolls : list Z)
    : result (list Z) :=
  dice_sums (samples * 4) all_rolls.

(** A roll of a six-sided die. *)
Definition is_roll (x : Z) : Prop := (1 <= x <= 6)%Z.

(** ** The molecular-dynamics notebook: moving a particle in the box

    Coordinates are exact rationals; [side_length] is positive. *)

Record particle := Particle { pos_x : Q; pos_y : Q; vel_x : Q; vel_y : Q }.

(** [x % s] for a positive [s]: [x - s * floor(x / s)]. *)
Definition Qmod (x s : Q) : Q := x - s * inject_Z (Qfloor (x / s)).

(** [if x < 0+1: x = 0+1; v *= -1] *)
Definition bounce_low (xv : Q * Q) : Q * Q :=
  if Qlt_le_dec (fst xv) (0 + 1) then (0 + 1, snd xv * -1) else xv.

(** [if x > side_length-1: x = side_length-1; v *= -1] *)
Definition bounce_high (side_length : Q) (xv : Q * Q) : Q * Q :=
  if Qlt_le_dec (side_length - 1) (fst xv)
  then (side_length - 1, snd xv * -1) else xv.

(** The body of the position loop for one particle:
    [position += velocity * time_step], the four wall checks (both low walls
    first, then both high walls), then [position % side_length]. *)
Definition update_position (side_length time_step : Q) (p : particle) : particle :=
  let x0 := pos_x p + vel_x p * time_step in
  let y0 := pos_y p + vel_y p * time_step in
  let xv1 := bounce_low (x0, vel_x p) in
  let yv1 := bounce_low (y0, vel_y p) in
  let xv2 := bounce_high side_length xv1 in
  let yv2 := bounce_high side_length yv1 in
  Particle (Qmod (fst xv2) side_length) (Qmod (fst yv2) side_length)
           (snd xv2) (snd yv2).

(** [for p in range(n): ...] over all particles. *)
Definition update_positions (side_length time_step : Q) (ps : list particle)
    : list particle :=
  map (update_position side_length time_step) ps.

(** A coordinate keeps one particle radius from both walls. *)
Definition in_box (side_length x : Q) : Prop := 1 <= x /\ x <= side_length - 1.

(** ** The KPZ loop body on binary64 values

    The same statements as [kpz_step], every operation being the IEEE 754
    binary64 one (round to nearest, ties to even) in the order in which the
    libraries perform it. *)

Module Float64.

Record ndarray2 := Array2 { shape0 : nat; shape1 : nat; data : list float }.

(** [a[i, j]] *)
Definition get (a : ndarray2) (i j : nat) : float :=
  nth (i * shape1 a + j)%nat (data a) 0%float.

Definition tabulate (r c : nat) (f : nat -> nat -> float) : ndarray2 :=
  Array2 r c (map (fun k => f (k / c)%nat (k mod c)%nat) (seq 0 (r * c))).

(** Cell-wise operation on two arrays of one shape. *)
Definition zip_with2 (f : float -> float -> float) (a b : ndarray2) : ndarray2 :=
  tabulate (shape0 a) (shape1 a) (fun i j => f (get a i j) (get b i j)).

(** A line of length [n] read at position [p] under [mode='reflect']
    ([d c b a | a b c d | d c b a]). *)
Definition reflect (n : nat) (line : nat -> float) (p : Z) : float :=
  let N := Z.of_nat n in
  let q := (p mod (2 * N))%Z in
  if (q <? N)%Z then line (Z.to_nat q) else line (Z.to_nat (2 * N - 1 - q)).

(** [correlate1d] along one line with the weights [[1, -2, 1]]: for
    symmetric weights the C loop computes
    [out[i] = line[i] * w[1]; out[i] += (line[i-1] + line[i+1]) * w[0]]. *)
Definition derivative2_line (n : nat) (line : nat -> float) (i : nat) : float :=
  (line i * (-2)
   + (reflect n line (Z.of_nat i - 1) + reflect n line (Z.of_nat i + 1)) * 1)%float.

(** [laplace(input)]: the second derivative along axis 0, then
    [output += tmp] with the one along axis 1. *)
Definition laplace (input : ndarray2) : ndarray2 :=
  let r := shape0 input in
  let c := shape1 input in
  let output := tabulate r c (fun i j => derivative2_line r (fun i' => get input i' j) i) in
  let tmp := tabulate r c (fun i j => derivative2_line c (fun j' => get input i j') j) in
  zip_with2 PrimFloat.add output tmp.

(** [np.gradient] along one line, unit spacing, [edge_order=1]:
    [(line[i+1] - line[i-1]) / 2.0] inside, [(line[1] - line[0]) / 1.0] and
    [(line[n-1] - line[n-2]) / 1.0] at the ends. *)
Definition gradient_line (n : nat) (line : nat -> float) (i : nat) : float :=
  if (i =? 0)%nat then ((line 1%nat - line 0%nat) / 1)%float
  else if (i =? n - 1)%nat then ((line (n - 1)%nat - line (n - 2)%nat) / 1)%float
  else ((line (i + 1)%nat - line (i - 1)%nat) / 2)%float.

Definition gradient (f : ndarray2) : result (ndarray2 * ndarray2) :=
  if ((shape0 f <? 2) || (shape1 f <? 2))%nat then Raise ValueError
  else Ok (tabulate (shape0 f) (shape1 f)
             (fun i j => gradient_line (shape0 f) (fun i' => get f i' j) i),
           tabulate (shape0 f) (shape1 f)
             (fun i j => gradient_line (shape1 f) (fun j' => get f i j') j)).

(** [k * a] for a scalar [k] *)
Definition scalar_mul (k : float) (a : ndarray2) : ndarray2 :=
  tabulate (shape0 a) (shape1 a) (fun i j => (k * get a i j)%float).

(** [a ** 2], computed as [a * a] *)
Definition square (a : ndarray2) : ndarray2 :=
  tabulate (shape0 a) (shape1 a) (fun i j => (get a i j * get a i j)%float).

(** [np.sum(a)] on an array of fewer than 8 values: pairwise summation then
    is the plain loop [res = -0.0; for x in a: res += x].  Longer buffers
    are summed by blocks, which is not modelled. *)
Definition np_sum (a : ndarray2) : option float :=
  if (length (data a) <? 8)%nat
  then Some (fold_left PrimFloat.add (data a) (-0)%float)
  else None.

(** Cell diagnostic-tuesday:
    [d_film = v*laplace(h); film[i] = h + d_film]. *)
Definition ew_step (v : float) (h : ndarray2) : result ndarray2 :=
  let d_film := scalar_mul v (laplace h) in
  Ok (zip_with2 PrimFloat.add h d_film).

(** Cell clinical-prior; every operand of [+] has the field's shape, so no
    broadcasting takes place:
    [l_film = laplace(h); g_film = np.gradient(h);
     g2_film = g_film[0]**2 + g_film[1]**2;
     d_film = v*l_film + l/2*g2_film; film[i] = h + d_film]. *)
Definition kpz_step (v l : float) (h : ndarray2) : result ndarray2 :=
  let l_film := laplace h in
  let* g_film := gradient h in
  let g2_film := zip_with2 PrimFloat.add (square (fst g_film)) (square (snd g_film)) in
  let d_film :=
    zip_with2 PrimFloat.add (scalar_mul v l_film) (scalar_mul (l / 2)%float g2_film) in
  Ok (zip_with2 PrimFloat.add h d_film).

(** A field at height [2^53] with one corner one unit in the last place
    higher, at [2^53 + 2]. *)
Definition plateau : ndarray2 :=
  Array2 2 2 [9007199254740992; 9007199254740992;
              9007199254740992; 9007199254740994]%float.

(** A flat field at 1.0 with one cell raised to 1.3. *)
Definition bump : ndarray2 := Array2 2 2 [1; 1; 1; 1.3]%float.

(** A flat field at 1.3 with one corner raised by one unit in the last
    place. *)
Definition ulp_corner : ndarray2 :=
  Array2 2 2 [1.3000000000000003; 1.3; 1.3; 1.3]%float.

(** A field with height differences of a few [1e-9]. *)
Definition ripple : ndarray2 :=
  Array2 2 2 [0.1; 0.100000001; 0.100000002; 0.1]%float.

(** The notebook's parameters [v = 0.1] and [l = 0.05]. *)
Definition v : float := 0.1%float.
Definition l : float := 0.05%float.

End Float64.

(** ** Finite sums over index ranges (used to state and prove the mass
    identities) *)

Fixpoint sumn (n : nat) (g : nat -> Q) : Q :=
  match n with
  | O => 0
  | S n' => sumn n' g + g n'
  end.

(** * Properties *)

(** ** Sums *)

Lemma Qsum_app (l1 l2 : list Q) : Qsum (l1 ++ l2) == Qsum l1 + Qsum l2.
Proof.
  induction l1 as [|x l1 IH]; simpl.
  - ring.
  - rewrite IH. ring.
Qed.

Lemma sumn_ext (n : nat) (f g : nat -> Q) :
  (forall i, (i < n)%nat -> f i == g i) -> sumn n f == sumn n g.
Proof.
  induction n as [|n IH]; intros H; simpl.
  - reflexivity.
  - rewrite IH, (H n) by (intros; try apply H; lia). reflexivity.
Qed.

Lemma sumn_zero (n : nat) (f : nat -> Q) :
  (forall i, (i < n)%nat -> f i == 0) -> sumn n f == 0.
Proof.
  induction n as [|n IH]; intros H; simpl.
  - reflexivity.
  - rewrite IH, (H n) by (intros; try apply H; lia). ring.
Qed.

Lemma sumn_add (n : nat) (f g : nat -> Q) :
  sumn n (fun i => f i + g i) == sumn n f + sumn n g.
Proof.
  induction n as [|n IH]; simpl.
  - ring.
  - rewrite IH. ring.
Qed.

Lemma sumn_scal (n : nat) (k : Q) (f : nat -> Q) :
  sumn n (fun i => k * f i) == k * sumn n f.
Proof.
  induction n as [|n IH]; simpl.
  - ring.
  - rewrite IH. ring.
Qed.

Lemma sumn_nonneg (n : nat) (f : nat -> Q) :
  (forall i, (i < n)%nat -> 0 <= f i) -> 0 <= sumn n f.
Proof.
  induction n as [|n IH]; intros H; simpl.
  - lra.
  - assert (0 <= sumn n f) by (apply IH; intros; apply H; lia).
    assert (0 <= f n) by (apply H; lia). lra.
Qed.

Lemma sumn_nonneg_zero (n : nat) (f : nat -> Q) :
  (forall i, (i < n)%nat -> 0 <= f i) -> sumn n f == 0 ->
  forall i, (i < n)%nat -> f i == 0.
Proof.
  induction n as [|n IH]; intros H Hs i Hi; [lia|].
  simpl in Hs.
  assert (0 <= sumn n f) by (apply sumn_nonneg; intros; apply H; lia).
  assert (0 <= f n) by (apply H; lia).
  destruct (Nat.eq_dec i n) as [->|Hne].
  - lra.
  - apply IH; [intros; apply H; lia | lra | lia].
Qed.

Lemma sumn_swap (n m : nat) (f : nat -> nat -> Q) :
  sumn n (fun i => sumn m (fun j => f i j)) ==
  sumn m (fun j => sumn n (fun i => f i j)).
Proof.
  induction n as [|n IH]; simpl.
  - symmetry. apply sumn_zero. reflexivity.
  - rewrite IH, <- sumn_add. reflexivity.
Qed.

Lemma sumn_telescope (n : nat) (d : nat -> Q) :
  sumn n (fun i => d (S i) - d i) == d n - d 0%nat.
Proof.
  induction n as [|n IH]; simpl.
  - ring.
  - rewrite IH. ring.
Qed.

Lemma Qsum_map_seq (g : nat -> Q) (s n : nat) :
  Qsum (map g (seq s n)) == sumn n (fun i => g (s + i)%nat).
Proof.
  revert s. induction n as [|n IH]; intros s.
  - reflexivity.
  - rewrite seq_S, map_app, Qsum_app, IH. simpl. ring.
Qed.

Lemma sumn_flat (r c : nat) (h : nat -> Q) :
  sumn (r * c) h == sumn r (fun i => sumn c (fun j => h (i * c + j)%nat)).
Proof.
  induction r as [|r IH]; simpl.
  - reflexivity.
  - rewrite <- IH. clear IH.
    replace (c + r * c)%nat with (r * c + c)%nat by lia.
    generalize (r * c)%nat as m. intros m.
    induction c as [|c IHc]; cbn [sumn].
    + rewrite Nat.add_0_r. ring.
    + rewrite Nat.add_succ_r. cbn [sumn]. rewrite IHc. ring.
Qed.

Lemma Qsum_nth (l : list Q) : Qsum l == sumn (length l) (fun k => nth k l 0).
Proof.
  induction l as [|x l IH] using rev_ind.
  - reflexivity.
  - rewrite Qsum_app, length_app, Nat.add_1_r. simpl.
    rewrite IH, app_nth2, Nat.sub_diag by lia. simpl.
    rewrite (sumn_ext _ (fun k => nth k (l ++ [x]) 0) (fun k => nth k l 0)).
    + ring.
    + intros i Hi. rewrite app_nth1 by lia. reflexivity.
Qed.

(** ** Array access *)

Lemma get_tabulate (r c : nat) (f : nat -> nat -> Q) (i j : nat) :
  (i < r)%nat -> (j < c)%nat -> get (tabulate r c f) i j = f i j.
Proof.
  intros Hi Hj. unfold get, tabulate. simpl.
  assert (Hk : (i * c + j < r * c)%nat) by nia.
  set (g := fun k => f (k / c)%nat (k mod c)%nat).
  rewrite (nth_indep _ 0 (g 0%nat)) by (rewrite length_map, length_seq; lia).
  rewrite (map_nth g), seq_nth by lia. unfold g.
  simpl. f_equal.
  - rewrite Nat.div_add_l, Nat.div_small by lia. lia.
  - rewrite Nat.add_comm, Nat.Div0.mod_add, Nat.mod_small by lia. reflexivity.
Qed.

Lemma wf2_tabulate (r c : nat) (f : nat -> nat -> Q) : wf2 (tabulate r c f).
Proof. unfold wf2, tabulate. simpl. rewrite length_map, length_seq. reflexivity. Qed.

Lemma np_sum_tabulate (r c : nat) (f : nat -> nat -> Q) :
  np_sum (tabulate r c f) == sumn r (fun i => sumn c (fun j => f i j)).
Proof.
  unfold np_sum, tabulate. simpl.
  rewrite Qsum_map_seq, sumn_flat.
  apply sumn_ext. intros i Hi. apply sumn_ext. intros j Hj. simpl.
  rewrite Nat.div_add_l, Nat.div_small by lia.
  rewrite (Nat.add_comm (i * c)), Nat.Div0.mod_add, Nat.mod_small by lia.
  rewrite Nat.add_0_r. reflexivity.
Qed.

Lemma np_sum_get (a : ndarray2) :
  wf2 a ->
  np_sum a == sumn (shape0 a) (fun i => sumn (shape1 a) (fun j => get a i j)).
Proof.
  intros Hwf. unfold np_sum. rewrite Qsum_nth, Hwf, sumn_flat. reflexivity.
Qed.

(** ** Boundary extension *)

Lemma extend_in (m : mode) (cval : Q) (n : nat) (line : nat -> Q) (p : Z) :
  (0 <= p < Z.of_nat n)%Z -> extend m cval n line p = line (Z.to_nat p).
Proof.
  intros Hp. unfold extend.
  destruct (0 <=? p)%Z eqn:E1; [|lia].
  destruct (p <? Z.of_nat n)%Z eqn:E2; [|lia].
  reflexivity.
Qed.

Lemma extend_reflect_lo (cval : Q) (n : nat) (line : nat -> Q) :
  (1 <= n)%nat -> extend Reflect cval n line (-1) = line 0%nat.
Proof.
  intros Hn. unfold extend. simpl.
  assert (Hq : ((-1) mod (2 * Z.of_nat n) = 2 * Z.of_nat n - 1)%Z).
  { symmetry. apply (Z.mod_unique _ _ (-1)); lia. }
  rewrite Hq.
  destruct (2 * Z.of_nat n - 1 <? Z.of_nat n)%Z eqn:E; [lia|].
  f_equal. lia.
Qed.

Lemma extend_reflect_hi (cval : Q) (n : nat) (line : nat -> Q) :
  (1 <= n)%nat -> extend Reflect cval n line (Z.of_nat n) = line (n - 1)%nat.
Proof.
  intros Hn. unfold extend.
  destruct (0 <=? Z.of_nat n)%Z eqn:E1; [|lia].
  destruct (Z.of_nat n <? Z.of_nat n)%Z eqn:E2; [lia|]. simpl.
  rewrite Z.mod_small by lia. rewrite E2.
  f_equal. lia.
Qed.

Lemma extend_wrap_lo (cval : Q) (n : nat) (line : nat -> Q) :
  (1 <= n)%nat -> extend Wrap cval n line (-1) = line (n - 1)%nat.
Proof.
  intros Hn. unfold extend. simpl.
  assert (Hq : ((-1) mod Z.of_nat n = Z.of_nat n - 1)%Z).
  { symmetry. apply (Z.mod_unique _ _ (-1)); lia. }
  rewrite Hq. f_equal. lia.
Qed.

Lemma extend_wrap_hi (cval : Q) (n : nat) (line : nat -> Q) :
  (1 <= n)%nat -> extend Wrap cval n line (Z.of_nat n) = line 0%nat.
Proof.
  intros Hn. unfold extend.
  destruct (0 <=? Z.of_nat n)%Z eqn:E1; [|lia].
  destruct (Z.of_nat n <? Z.of_nat n)%Z eqn:E2; [lia|]. simpl.
  rewrite Z.mod_same by lia. reflexivity.
Qed.

(** The three-tap second difference [1, -2, 1] written out. *)
Lemma correlate_line_3 (m : mode) (cval : Q) (n : nat) (line : nat -> Q) (i : nat) :
  (i < n)%nat ->
  correlate_line [1; -2 # 1; 1] m cval n line i ==
  extend m cval n line (Z.of_nat i - 1) - 2 * line i
  + extend m cval n line (Z.of_nat i + 1).
Proof.
  intros Hi. unfold correlate_line. cbn [imap length Qsum foldr].
  change (3 / 2)%nat with 1%nat. cbn [compose].
  replace (Z.of_nat i + Z.of_nat 0 - Z.of_nat 1)%Z with (Z.of_nat i - 1)%Z by lia.
  replace (Z.of_nat i + Z.of_nat 1 - Z.of_nat 1)%Z with (Z.of_nat i) by lia.
  replace (Z.of_nat i + Z.of_nat 2 - Z.of_nat 1)%Z with (Z.of_nat i + 1)%Z by lia.
  rewrite (extend_in m cval n line (Z.of_nat i)) by lia.
  rewrite Nat2Z.id. ring.
Qed.

Lemma derivative2_line_reflect (n : nat) (line : nat -> Q) (i : nat) :
  (i < n)%nat ->
  correlate_line [1; -2 # 1; 1] Reflect 0 n line i ==
  line (i - 1)%nat - 2 * line i + line (Nat.min (i + 1) (n - 1)).
Proof.
  intros Hi. rewrite correlate_line_3 by exact Hi.
  assert (Hlo : extend Reflect 0 n line (Z.of_nat i - 1) = line (i - 1)%nat).
  { destruct i as [|i].
    - simpl. apply extend_reflect_lo. lia.
    - rewrite extend_in by lia. f_equal. lia. }
  assert (Hhi : extend Reflect 0 n line (Z.of_nat i + 1)
                = line (Nat.min (i + 1) (n - 1))).
  { destruct (Nat.eq_dec (i + 1) n) as [E|E].
    - replace (Z.of_nat i + 1)%Z with (Z.of_nat n) by lia.
      rewrite extend_reflect_hi by lia. f_equal. lia.
    - rewrite extend_in by lia. f_equal. lia. }
  rewrite Hlo, Hhi. reflexivity.
Qed.

Lemma derivative2_line_wrap (n : nat) (line : nat -> Q) (i : nat) :
  (i < n)%nat ->
  correlate_line [1; -2 # 1; 1] Wrap 0 n line i ==
  line ((i + n - 1) mod n)%nat - 2 * line i + line ((i + 1) mod n)%nat.
Proof.
  intros Hi. rewrite correlate_line_3 by exact Hi.
  assert (Hlo : extend Wrap 0 n line (Z.of_nat i - 1) = line ((i + n - 1) mod n)%nat).
  { destruct i as [|i].
    - simpl. rewrite extend_wrap_lo by lia. f_equal.
      rewrite Nat.mod_small; lia.
    - rewrite extend_in by lia. f_equal.
      replace (S i + n - 1)%nat with (i + 1 * n)%nat by lia.
      rewrite Nat.Div0.mod_add, Nat.mod_small; lia. }
  assert (Hhi : extend Wrap 0 n line (Z.of_nat i + 1) = line ((i + 1) mod n)%nat).
  { destruct (Nat.eq_dec (i + 1) n) as [E|E].
    - replace (Z.of_nat i + 1)%Z with (Z.of_nat n) by lia.
      rewrite extend_wrap_hi by lia. f_equal.
      rewrite E, Nat.Div0.mod_same. reflexivity.
    - rewrite extend_in by lia. f_equal.
      rewrite Nat.mod_small; lia. }
  rewrite Hlo, Hhi. reflexivity.
Qed.

(** The second difference under the reflect extension sums to zero along
    any line: it telescopes. *)
Lemma derivative2_line_reflect_sum (n : nat) (line : nat -> Q) :
  sumn n (fun i => correlate_line [1; -2 # 1; 1] Reflect 0 n line i) == 0.
Proof.
  set (d := fun i : nat =>
              if ((i =? 0) || (n <=? i))%nat then 0
              else line i - line (i - 1)%nat).
  rewrite (sumn_ext n _ (fun i => d (S i) - d i)).
  - rewrite sumn_telescope. unfold d.
    rewrite Nat.leb_refl, orb_true_r. simpl. ring.
  - intros i Hi. rewrite derivative2_line_reflect by exact Hi. unfold d.
    destruct i as [|i].
    + cbn [Nat.eqb orb Nat.add Nat.sub]. destruct (n <=? 1)%nat eqn:E.
      * apply Nat.leb_le in E. replace (Nat.min 1 (n - 1)) with 0%nat by lia. ring.
      * apply Nat.leb_gt in E. replace (Nat.min 1 (n - 1)) with 1%nat by lia. ring.
    + replace ((S i =? 0) || (n <=? S i))%nat with false
        by (symmetry; apply orb_false_iff; split;
            [apply Nat.eqb_neq | apply Nat.leb_gt]; lia).
      replace (S (S i) =? 0)%nat with false by reflexivity.
      rewrite orb_false_l.
      destruct (n <=? S (S i))%nat eqn:E.
      * apply Nat.leb_le in E.
        replace (Nat.min (S i + 1) (n - 1)) with (S i) by lia. ring.
      * apply Nat.leb_gt in E.
        replace (Nat.min (S i + 1) (n - 1)) with (S (S i)) by lia.
        replace (S (S i) - 1)%nat with (S i) by lia. ring.
Qed.

(** ** The Laplacian *)

Lemma shape_laplace (a : ndarray2) :
  shape0 (laplace a) = shape0 a /\ shape1 (laplace a) = shape1 a.
Proof. split; reflexivity. Qed.

Lemma get_generic_laplace (a : ndarray2) (m : mode) (cval : Q) (i j : nat) :
  (i < shape0 a)%nat -> (j < shape1 a)%nat ->
  get (generic_laplace a m cval) i j ==
  correlate_line [1; -2 # 1; 1] m cval (shape0 a) (fun i' => get a i' j) i
  + correlate_line [1; -2 # 1; 1] m cval (shape1 a) (fun j' => get a i j') j.
Proof.
  intros Hi Hj. unfold generic_laplace, zip_with2, derivative2, correlate1d.
  cbn [shape0 shape1 tabulate].
  rewrite get_tabulate by assumption.
  rewrite !get_tabulate by assumption. reflexivity.
Qed.

Lemma get_laplace (a : ndarray2) (i j : nat) :
  (i < shape0 a)%nat -> (j < shape1 a)%nat ->
  get (laplace a) i j == reflect_stencil a i j.
Proof.
  intros Hi Hj. unfold laplace. rewrite get_generic_laplace by assumption.
  rewrite !derivative2_line_reflect by assumption.
  unfold reflect_stencil.
  destruct (Nat.eqb_spec i 0);
    destruct (Nat.eqb_spec (i + 1) (shape0 a));
    destruct (Nat.eqb_spec j 0);
    destruct (Nat.eqb_spec (j + 1) (shape1 a));
    try replace (i - 1)%nat with i by lia;
    try replace (j - 1)%nat with j by lia;
    try replace (Nat.min (i + 1) (shape0 a - 1)) with i by lia;
    try replace (Nat.min (i + 1) (shape0 a - 1)) with (i + 1)%nat by lia;
    try replace (Nat.min (j + 1) (shape1 a - 1)) with j by lia;
    try replace (Nat.min (j + 1) (shape1 a - 1)) with (j + 1)%nat by lia;
    ring.
Qed.

Lemma get_laplace_wrap (a : ndarray2) (i j : nat) :
  (i < shape0 a)%nat -> (j < shape1 a)%nat ->
  get (generic_laplace a Wrap 0) i j == periodic_stencil a i j.
Proof.
  intros Hi Hj. rewrite get_generic_laplace by assumption.
  rewrite !derivative2_line_wrap by assumption.
  unfold periodic_stencil. ring.
Qed.

(** The reflecting Laplacian has zero total: no mass enters or leaves
    through the boundary. *)
Lemma np_sum_laplace (a : ndarray2) : np_sum (laplace a) == 0.
Proof.
  unfold laplace, generic_laplace, zip_with2.
  rewrite np_sum_tabulate.
  cbn [shape0 shape1 derivative2 correlate1d tabulate].
  set (r := shape0 a). set (c := shape1 a).
  rewrite (sumn_ext r _ (fun i =>
    sumn c (fun j => correlate_line [1; -2 # 1; 1] Reflect 0 r (fun i' => get a i' j) i)
    + sumn c (fun j => correlate_line [1; -2 # 1; 1] Reflect 0 c (fun j' => get a i j') j))).
  - rewrite sumn_add, sumn_swap.
    rewrite (sumn_zero c), (sumn_zero r); [ring | |].
    + intros i _. apply derivative2_line_reflect_sum.
    + intros j _. apply derivative2_line_reflect_sum.
  - intros i Hi. rewrite <- sumn_add. apply sumn_ext. intros j Hj.
    fold (derivative2 a Axis0 Reflect 0) (derivative2 a Axis1 Reflect 0).
    unfold derivative2, correlate1d. fold r c.
    rewrite !get_tabulate by assumption. reflexivity.
Qed.

(** ** Cell-wise arithmetic *)

Lemma tabulate_ext (r c : nat) (f g : nat -> nat -> Q) :
  (forall i j, (i < r)%nat -> (j < c)%nat -> f i j = g i j) ->
  tabulate r c f = tabulate r c g.
Proof.
  intros H. unfold tabulate. f_equal.
  apply map_ext_in. intros k Hk. apply in_seq in Hk.
  assert (c <> 0)%nat by (intros ->; lia).
  apply H.
  - apply Nat.Div0.div_lt_upper_bound. lia.
  - apply Nat.mod_upper_bound. assumption.
Qed.

Lemma bget_in (a : ndarray2) (i j : nat) :
  (i < shape0 a)%nat -> (j < shape1 a)%nat -> bget a i j = get a i j.
Proof.
  intros Hi Hj. unfold bget.
  destruct (shape0 a =? 1)%nat eqn:E0; destruct (shape1 a =? 1)%nat eqn:E1;
    try apply Nat.eqb_eq in E0; try apply Nat.eqb_eq in E1; f_equal; lia.
Qed.

(** On operands of one shape [+] never raises and adds cell by cell. *)
Lemma np_add_same_shape (a b : ndarray2) :
  same_shape a b -> np_add a b = Ok (zip_with2 Qplus a b).
Proof.
  intros [H0 H1]. unfold np_add, broadcast_dim, zip_with2.
  rewrite <- H0, <- H1, !Nat.eqb_refl. f_equal.
  apply tabulate_ext. intros i j Hi Hj.
  rewrite !bget_in by lia. reflexivity.
Qed.

Lemma np_sum_zip_plus (a b : ndarray2) :
  wf2 a -> wf2 b -> same_shape a b ->
  np_sum (zip_with2 Qplus a b) == np_sum a + np_sum b.
Proof.
  intros Ha Hb [H0 H1]. unfold zip_with2.
  rewrite np_sum_tabulate, (np_sum_get a Ha), (np_sum_get b Hb), <- H0, <- H1.
  rewrite <- sumn_add. apply sumn_ext. intros i _.
  rewrite <- sumn_add. reflexivity.
Qed.

Lemma np_sum_scalar_mul (k : Q) (a : ndarray2) :
  wf2 a -> np_sum (scalar_mul k a) == k * np_sum a.
Proof.
  intros Ha. unfold scalar_mul.
  rewrite np_sum_tabulate, (np_sum_get a Ha), <- sumn_scal.
  apply sumn_ext. intros i _. rewrite <- sumn_scal. reflexivity.
Qed.

Lemma wf2_full (r c : nat) (x : Q) : wf2 (full r c x).
Proof. unfold wf2, full. simpl. apply length_replicate. Qed.

Lemma get_full (r c : nat) (x : Q) (i j : nat) :
  (i < r)%nat -> (j < c)%nat -> get (full r c x) i j = x.
Proof.
  intros Hi Hj. unfold get, full. simpl.
  apply nth_lookup_Some with (d := 0). apply lookup_replicate_2. nia.
Qed.

Lemma np_sum_full_zero (r c : nat) : np_sum (full r c 0) == 0.
Proof.
  rewrite np_sum_get by apply wf2_full. simpl.
  apply sumn_zero. intros i Hi. apply sumn_zero. intros j Hj.
  rewrite get_full by assumption. reflexivity.
Qed.

Lemma wf2_laplace (a : ndarray2) : wf2 (laplace a).
Proof. apply wf2_tabulate. Qed.

Lemma wf2_scalar_mul (k : Q) (a : ndarray2) : wf2 (scalar_mul k a).
Proof. apply wf2_tabulate. Qed.

Lemma wf2_zip (f : Q -> Q -> Q) (a b : ndarray2) : wf2 (zip_with2 f a b).
Proof. apply wf2_tabulate. Qed.

Lemma wf2_square (a : ndarray2) : wf2 (square a).
Proof. apply wf2_tabulate. Qed.

(** ** The loop bodies in closed form *)

Lemma ew_step_ok (v : Q) (h : ndarray2) :
  ew_step v h = Ok (zip_with2 Qplus h (scalar_mul v (laplace h))).
Proof. unfold ew_step. apply np_add_same_shape. split; reflexivity. Qed.

Lemma ew_noise_step_ok (v : Q) (h eta : ndarray2) :
  same_shape h eta ->
  ew_noise_step v h eta =
  Ok (zip_with2 Qplus h (zip_with2 Qplus (scalar_mul v (laplace h)) eta)).
Proof.
  intros Hs. unfold ew_noise_step.
  rewrite np_add_same_shape by exact Hs. cbn [bind].
  apply np_add_same_shape. split; reflexivity.
Qed.

Lemma gradient_ok (h : ndarray2) :
  (2 <= shape0 h)%nat -> (2 <= shape1 h)%nat ->
  gradient h = Ok (grad0 h, grad1 h).
Proof.
  intros H0 H1. unfold gradient.
  destruct (shape0 h <? 2)%nat eqn:E0; [apply Nat.ltb_lt in E0; lia|].
  destruct (shape1 h <? 2)%nat eqn:E1; [apply Nat.ltb_lt in E1; lia|].
  reflexivity.
Qed.

Lemma gradient_too_small (h : ndarray2) :
  (shape0 h < 2)%nat \/ (shape1 h < 2)%nat -> gradient h = Raise ValueError.
Proof.
  intros H. unfold gradient.
  destruct (shape0 h <? 2)%nat eqn:E0; [reflexivity|].
  destruct (shape1 h <? 2)%nat eqn:E1; [reflexivity|].
  apply Nat.ltb_ge in E0, E1. lia.
Qed.

Lemma grad_squared_ok (h : ndarray2) :
  (2 <= shape0 h)%nat -> (2 <= shape1 h)%nat ->
  grad_squared h = Ok (grad_squared_value h).
Proof.
  intros H0 H1. unfold grad_squared.
  rewrite gradient_ok by assumption. cbn [bind fst snd].
  apply np_add_same_shape. split; reflexivity.
Qed.

Lemma kpz_step_ok (v l : Q) (h : ndarray2) :
  (2 <= shape0 h)%nat -> (2 <= shape1 h)%nat ->
  kpz_step v l h =
  Ok (zip_with2 Qplus h
        (zip_with2 Qplus (scalar_mul v (laplace h)) (scalar_mul (l / 2) (grad_squared_value h)))).
Proof.
  intros H0 H1. unfold kpz_step.
  rewrite grad_squared_ok by assumption. cbn [bind].
  rewrite np_add_same_shape by (split; reflexivity). cbn [bind].
  apply np_add_same_shape. split; reflexivity.
Qed.

Lemma kpz_noise_step_ok (v l : Q) (h eta : ndarray2) :
  (2 <= shape0 h)%nat -> (2 <= shape1 h)%nat -> same_shape h eta ->
  kpz_noise_step v l h eta =
  Ok (zip_with2 Qplus h
        (zip_with2 Qplus
           (zip_with2 Qplus (scalar_mul v (laplace h)) (scalar_mul (l / 2) (grad_squared_value h)))
           eta)).
Proof.
  intros H0 H1 Hs. unfold kpz_noise_step.
  rewrite grad_squared_ok by assumption. cbn [bind].
  rewrite np_add_same_shape by (split; reflexivity). cbn [bind].
  rewrite np_add_same_shape by exact Hs. cbn [bind].
  apply np_add_same_shape. split; reflexivity.
Qed.

(** [np.gradient] is called whatever [l] is: on a field with an axis
    shorter than 2 both KPZ bodies raise. *)
Lemma kpz_step_too_small (v l : Q) (h : ndarray2) :
  (shape0 h < 2)%nat \/ (shape1 h < 2)%nat ->
  kpz_step v l h = Raise ValueError.
Proof.
  intros H. unfold kpz_step, grad_squared.
  rewrite gradient_too_small by exact H. reflexivity.
Qed.

Lemma kpz_noise_step_too_small (v l : Q) (h eta : ndarray2) :
  (shape0 h < 2)%nat \/ (shape1 h < 2)%nat ->
  kpz_noise_step v l h eta = Raise ValueError.
Proof.
  intros H. unfold kpz_noise_step, grad_squared.
  rewrite gradient_too_small by exact H. reflexivity.
Qed.

Lemma get_zip (f : Q -> Q -> Q) (a b : ndarray2) (i j : nat) :
  (i < shape0 a)%nat -> (j < shape1 a)%nat ->
  get (zip_with2 f a b) i j = f (get a i j) (get b i j).
Proof. intros. unfold zip_with2. apply get_tabulate; assumption. Qed.

Lemma get_scalar_mul (k : Q) (a : ndarray2) (i j : nat) :
  (i < shape0 a)%nat -> (j < shape1 a)%nat ->
  get (scalar_mul k a) i j = k * get a i j.
Proof. intros. unfold scalar_mul. apply get_tabulate; assumption. Qed.

Lemma get_square (a : ndarray2) (i j : nat) :
  (i < shape0 a)%nat -> (j < shape1 a)%nat ->
  get (square a) i j = get a i j ^ 2.
Proof. intros. unfold square. apply get_tabulate; assumption. Qed.

Lemma get_grad_squared_value (h : ndarray2) (i j : nat) :
  (i < shape0 h)%nat -> (j < shape1 h)%nat ->
  get (grad_squared_value h) i j = squared_gradient_at h i j.
Proof.
  intros Hi Hj. unfold grad_squared_value.
  rewrite get_zip, !get_square by assumption.
  unfold grad0, grad1. rewrite !get_tabulate by assumption. reflexivity.
Qed.

(** [np.gradient] computes the difference quotients of [slope]. *)
Lemma gradient_line_slope (n : nat) (line : nat -> Q) (i : nat) :
  (2 <= n)%nat -> (i < n)%nat -> gradient_line n line i == slope n line i.
Proof.
  intros Hn Hi. unfold gradient_line, slope.
  destruct (Nat.eqb_spec i 0) as [->|H0].
  - replace (Nat.min (0 + 1) (n - 1)) with 1%nat by lia.
    cbn [Nat.sub]. change (inject_Z (Z.of_nat 1)) with 1. field.
  - destruct (Nat.eqb_spec i (n - 1)) as [->|H1].
    + replace (Nat.min (n - 1 + 1) (n - 1)) with (n - 1)%nat by lia.
      replace (n - 1 - 1)%nat with (n - 2)%nat by lia.
      replace (n - 1 - (n - 2))%nat with 1%nat by lia.
      change (inject_Z (Z.of_nat 1)) with 1. field.
    + replace (Nat.min (i + 1) (n - 1)) with (i + 1)%nat by lia.
      replace (i + 1 - (i - 1))%nat with 2%nat by lia.
      change (inject_Z (Z.of_nat 2)) with 2. reflexivity.
Qed.

Lemma squared_gradient_at_slopes (h : ndarray2) (i j : nat) :
  (2 <= shape0 h)%nat -> (2 <= shape1 h)%nat ->
  (i < shape0 h)%nat -> (j < shape1 h)%nat ->
  squared_gradient_at h i j == squared_slopes h i j.
Proof.
  intros H0 H1 Hi Hj. unfold squared_gradient_at, squared_slopes.
  rewrite !gradient_line_slope by assumption. reflexivity.
Qed.

(** The rule with the reflecting stencil, in terms of the library
    operations of the loop bodies. *)
Lemma update_rule_reflect (h : ndarray2) (nu lambda : Q) (noise : ndarray2) (i j : nat) :
  (i < shape0 h)%nat -> (j < shape1 h)%nat ->
  ((2 <= shape0 h)%nat /\ (2 <= shape1 h)%nat \/ lambda == 0) ->
  update_rule reflect_stencil h nu lambda noise i j ==
  get h i j + nu * get (laplace h) i j
  + (lambda / 2) * squared_gradient_at h i j + get noise i j.
Proof.
  intros Hi Hj Hcase. unfold update_rule.
  rewrite get_laplace by assumption.
  destruct (Qeq_bool lambda 0) eqn:E.
  - apply Qeq_bool_eq in E. rewrite E. field.
  - destruct Hcase as [[H0 H1]|Hl].
    + rewrite squared_gradient_at_slopes by assumption. reflexivity.
    + apply Qeq_eq_bool in Hl. congruence.
Qed.

(** ** Mass conservation of the diffusion step *)

Lemma ew_step_mass (v : Q) (h : ndarray2) :
  wf2 h -> exists h', ew_step v h = Ok h' /\ np_sum h' == np_sum h.
Proof.
  intros Hwf. eexists. split; [apply ew_step_ok|].
  rewrite np_sum_zip_plus, np_sum_scalar_mul, np_sum_laplace;
    try assumption; try apply wf2_tabulate; try (split; reflexivity).
  ring.
Qed.

(** C1. With the non-linear coefficient at 0 and an all-zero noise slice,
    one step keeps the total [np.sum] of the field, for every field and
    every surface tension [v] (exact arithmetic).  This holds for the plain
    EW loop body, for the EW loop body with noise fed a zero slice, and for
    the KPZ loop body with [l = 0] fed a zero slice (which needs two samples
    per axis for [np.gradient]). *)
Theorem step_conserves_mass (v : Q) (h : ndarray2) :
  wf2 h ->
  (exists h', ew_step v h = Ok h' /\ np_sum h' == np_sum h) /\
  (exists h', ew_noise_step v h (full (shape0 h) (shape1 h) 0) = Ok h'
              /\ np_sum h' == np_sum h) /\
  ((2 <= shape0 h)%nat -> (2 <= shape1 h)%nat ->
   exists h', kpz_noise_step v 0 h (full (shape0 h) (shape1 h) 0) = Ok h'
              /\ np_sum h' == np_sum h).
Proof.
  intros Hwf. repeat split.
  - apply ew_step_mass, Hwf.
  - eexists. split; [apply ew_noise_step_ok; split; reflexivity|].
    rewrite !np_sum_zip_plus, np_sum_scalar_mul, np_sum_laplace, np_sum_full_zero;
      try assumption; try apply wf2_tabulate; try apply wf2_full;
      try (split; reflexivity).
    ring.
  - intros H0 H1.
    eexists. split; [apply kpz_noise_step_ok; try assumption; split; reflexivity|].
    rewrite !np_sum_zip_plus, !np_sum_scalar_mul, np_sum_laplace, np_sum_full_zero;
      try assumption; try apply wf2_tabulate; try apply wf2_full;
      try (split; reflexivity).
    field.
Qed.

Lemma step_conserves_mass_witness :
  exists h', ew_step (1 # 10) ramp2 = Ok h' /\ np_sum h' == np_sum ramp2.
Proof.
  apply (step_conserves_mass (1 # 10) ramp2). reflexivity.
Defined.

(** ** The update rule *)

(** C2 fails as stated.  On the one-cell field [[10]] the KPZ loop body
    with [l = 0] raises [ValueError] (it calls [np.gradient] whatever [l]
    is), so it computes no new field at all, whichever stencil is taken for
    the Laplacian; and on [corner3] the EW loop body does not compute the
    rule with the specification's periodic Laplacian: at cell (0, 2) the
    body yields 0 and the rule yields 1. *)
Lemma update_rule_not_computed :
  (kpz_step (1 # 10) 0 (full 1 1 10) = Raise ValueError /\
   forall stencil,
     ~ computes stencil (kpz_step (1 # 10) 0 (full 1 1 10))
         (full 1 1 10) (1 # 10) 0 (full 1 1 0)) /\
  ~ computes periodic_stencil (ew_step 1 corner3) corner3 1 0 (full 3 3 0).
Proof.
  split; [split; [reflexivity|]|].
  - intros stencil (h' & E & _). discriminate E.
  - intros (h' & E & _ & _ & H).
    rewrite ew_step_ok in E. injection E as <-.
    specialize (H 0%nat 2%nat ltac:(simpl; lia) ltac:(simpl; lia)).
    vm_compute in H. discriminate H.
Qed.

(** C2 (amended).  In exact arithmetic, for every field and every noise
    slice of the field's shape, each loop body computes cell by cell the
    update rule [field + v*Laplacian(field) + (l/2)*(sum of the squared
    partial derivatives along both axes) + noise] in a single step of size
    1, where the Laplacian is the five-point stencil with reflecting edges
    and the partial derivatives are central differences inside the grid and
    one-sided differences at its edges.  The EW bodies are the rule with
    [lambda = 0] (no gradient term is formed) on every field; the KPZ bodies
    are the rule with [lambda = l] on fields with at least two rows and two
    columns, and raise [ValueError] on thinner fields, also when [l = 0].
    The loops without noise are the rule with a zero slice. *)
Theorem step_update_rule (v l : Q) (h eta : ndarray2) :
  same_shape h eta ->
  let zeros := full (shape0 h) (shape1 h) 0 in
  computes reflect_stencil (ew_step v h) h v 0 zeros /\
  computes reflect_stencil (ew_noise_step v h eta) h v 0 eta /\
  (if (2 <=? shape0 h)%nat && (2 <=? shape1 h)%nat
   then computes reflect_stencil (kpz_step v l h) h v l zeros /\
        computes reflect_stencil (kpz_noise_step v l h eta) h v l eta
   else kpz_step v l h = Raise ValueError /\
        kpz_noise_step v l h eta = Raise ValueError).
Proof.
  intros Hs zeros. split; [|split].
  - eexists. split; [apply ew_step_ok|].
    split; [apply wf2_tabulate|]. split; [split; reflexivity|].
    intros i j Hi Hj.
    rewrite update_rule_reflect by (try assumption; right; reflexivity).
    rewrite get_zip, get_scalar_mul by assumption.
    unfold zeros. rewrite get_full by assumption. field.
  - eexists. split; [apply ew_noise_step_ok; exact Hs|].
    split; [apply wf2_tabulate|]. split; [split; reflexivity|].
    intros i j Hi Hj.
    rewrite update_rule_reflect by (try assumption; right; reflexivity).
    rewrite !get_zip, get_scalar_mul by assumption. field.
  - destruct (Nat.leb_spec 2 (shape0 h)) as [H0|H0];
      [destruct (Nat.leb_spec 2 (shape1 h)) as [H1|H1]|]; cbn [andb].
    + split.
      * eexists. split; [apply kpz_step_ok; assumption|].
        split; [apply wf2_tabulate|]. split; [split; reflexivity|].
        intros i j Hi Hj.
        rewrite update_rule_reflect by (try assumption; left; split; assumption).
        rewrite !get_zip, !get_scalar_mul, get_grad_squared_value by assumption.
        unfold zeros. rewrite get_full by assumption. ring.
      * eexists. split; [apply kpz_noise_step_ok; assumption|].
        split; [apply wf2_tabulate|]. split; [split; reflexivity|].
        intros i j Hi Hj.
        rewrite update_rule_reflect by (try assumption; left; split; assumption).
        rewrite !get_zip, !get_scalar_mul, get_grad_squared_value by assumption.
        ring.
    + split; [apply kpz_step_too_small | apply kpz_noise_step_too_small];
        right; exact H1.
    + split; [apply kpz_step_too_small | apply kpz_noise_step_too_small];
        left; exact H0.
Qed.

Lemma step_update_rule_witness :
  computes reflect_stencil (kpz_noise_step (1 # 10) (1 # 20) ramp2 (full 2 2 1))
    ramp2 (1 # 10) (1 # 20) (full 2 2 1).
Proof.
  destruct (step_update_rule (1 # 10) (1 # 20) ramp2 (full 2 2 1)) as (_ & _ & K).
  - split; reflexivity.
  - exact (proj2 K).
Defined.

(** ** Boundary handling of the Laplacian *)

(** C3 fails as stated: at the edge cell (0, 2) of [corner3] the notebook's
    [laplace] yields 0, whereas the periodic five-point stencil, wrapping to
    the raised cell (0, 0) on the opposite edge, yields 1. *)
Lemma laplace_not_periodic :
  get (laplace corner3) 0 2 == 0 /\
  periodic_stencil corner3 0 2 == 1 /\
  ~ (get (laplace corner3) 0 2 == periodic_stencil corner3 0 2).
Proof.
  split; [reflexivity|]. split; [reflexivity|].
  intros Hc. vm_compute in Hc. discriminate Hc.
Qed.

(** C3 (amended). At every cell, edge cells included, [laplace] is the
    five-point stencil with the reflecting boundary of the library default
    [mode='reflect']: an out-of-grid neighbour of an edge cell is that edge
    cell's own value. *)
Theorem laplace_reflect_stencil (a : ndarray2) (i j : nat) :
  (i < shape0 a)%nat -> (j < shape1 a)%nat ->
  get (laplace a) i j == reflect_stencil a i j.
Proof. apply get_laplace. Qed.

Lemma laplace_reflect_stencil_witness :
  get (laplace corner3) 0 2 == reflect_stencil corner3 0 2.
Proof.
  apply (laplace_reflect_stencil corner3 0 2); simpl; lia.
Defined.

(** ** Flat fields and a single raised cell *)

Lemma get_perturb_full (r c : nat) (x y : Q) (i0 j0 i j : nat) :
  (i0 < r)%nat -> (j0 < c)%nat -> (i < r)%nat -> (j < c)%nat ->
  get (perturb (full r c x) i0 j0 y) i j =
  if ((i =? i0) && (j =? j0))%nat then y else x.
Proof.
  intros Hi0 Hj0 Hi Hj. unfold get, perturb, full. cbn [shape0 shape1 data].
  rewrite nth_lookup, list_lookup_insert, length_replicate.
  destruct (Nat.eqb_spec i i0) as [->|Hne]; cbn [andb].
  - destruct (Nat.eqb_spec j j0) as [->|Hne].
    + rewrite decide_True by (split; [reflexivity|nia]). reflexivity.
    + rewrite decide_False by lia.
      rewrite lookup_replicate_2 by nia. reflexivity.
  - rewrite decide_False by nia.
    rewrite lookup_replicate_2 by nia. reflexivity.
Qed.

Lemma wf2_perturb (a : ndarray2) (i0 j0 : nat) (y : Q) :
  wf2 a -> wf2 (perturb a i0 j0 y).
Proof. unfold wf2, perturb. simpl. rewrite length_insert. trivial. Qed.

Lemma laplace_full (r c : nat) (x : Q) (i j : nat) :
  (i < r)%nat -> (j < c)%nat -> get (laplace (full r c x)) i j == 0.
Proof.
  intros Hi Hj. rewrite get_laplace by assumption.
  unfold reflect_stencil. cbn [shape0 shape1 full].
  fold (full r c x).
  destruct (Nat.eqb_spec i 0); destruct (Nat.eqb_spec (i + 1) r);
    destruct (Nat.eqb_spec j 0); destruct (Nat.eqb_spec (j + 1) c);
    rewrite !get_full by lia; ring.
Qed.

Ltac case_cells :=
  repeat match goal with
  | |- context [Nat.eqb ?a ?b] => destruct (Nat.eqb_spec a b); try lia
  end; cbn [andb].

Lemma laplace_at_raised_cell (r c : nat) (x y : Q) (i0 j0 : nat) :
  (i0 < r)%nat -> (j0 < c)%nat -> x < y -> (1 < r * c)%nat ->
  get (laplace (perturb (full r c x) i0 j0 y)) i0 j0 < 0.
Proof.
  intros Hi0 Hj0 Hxy Hrc. rewrite get_laplace by assumption.
  unfold reflect_stencil. cbn [shape0 shape1 perturb full].
  fold (full r c x). change (Array2 r c _) with (perturb (full r c x) i0 j0 y).
  assert (Hcases : (i0 <> 0 \/ i0 + 1 <> r \/ j0 <> 0 \/ j0 + 1 <> c)%nat) by nia.
  destruct (Nat.eqb_spec i0 0); destruct (Nat.eqb_spec (i0 + 1) r);
    destruct (Nat.eqb_spec j0 0); destruct (Nat.eqb_spec (j0 + 1) c);
    try lia;
    rewrite !get_perturb_full by lia; case_cells; lra.
Qed.

Lemma laplace_next_to_raised_cell (r c : nat) (x y : Q) (i0 j0 i j : nat) :
  (i0 < r)%nat -> (j0 < c)%nat -> x < y ->
  (i < r)%nat -> (j < c)%nat -> adjacent i0 j0 i j ->
  0 < get (laplace (perturb (full r c x) i0 j0 y)) i j.
Proof.
  intros Hi0 Hj0 Hxy Hi Hj Hadj. rewrite get_laplace by assumption.
  unfold reflect_stencil. cbn [shape0 shape1 perturb full].
  fold (full r c x). change (Array2 r c _) with (perturb (full r c x) i0 j0 y).
  unfold adjacent in Hadj.
  destruct (Nat.eqb_spec i 0); destruct (Nat.eqb_spec (i + 1) r);
    destruct (Nat.eqb_spec j 0); destruct (Nat.eqb_spec (j + 1) c);
    rewrite !get_perturb_full by lia; case_cells; lra.
Qed.

(** C8 fails as stated.  On the one-cell field, raising the only cell
    leaves the field flat, so the Laplacian there is 0 and not negative.
    And in binary64 the strict sign and the exact sum are lost to rounding:
    on [Float64.ulp_corner], a flat field at 1.3 with a corner raised by one
    unit in the last place, the Laplacian at the raised corner is 0.0; on
    [Float64.bump], a flat field at 1.0 with one cell raised to 1.3, one
    step with [v = 0.1] takes the sum from 4.3 to 4.300000000000001. *)
Lemma single_cell_laplace_not_negative :
  (get (laplace (perturb (full 1 1 5) 0 0 10)) 0 0 == 0 /\
   ~ (get (laplace (perturb (full 1 1 5) 0 0 10)) 0 0 < 0)) /\
  (PrimFloat.next_up (Float64.get Float64.ulp_corner 0 1)
     = Float64.get Float64.ulp_corner 0 0 /\
   PrimFloat.ltb (Float64.get Float64.ulp_corner 0 1)
                 (Float64.get Float64.ulp_corner 0 0) = true /\
   Float64.get (Float64.laplace Float64.ulp_corner) 0 0 = 0%float) /\
  (exists h',
     Float64.ew_step Float64.v Float64.bump = Ok h' /\
     Float64.np_sum Float64.bump = Some 4.3%float /\
     Float64.np_sum h' = Some 4.300000000000001%float /\
     PrimFloat.ltb 4.3 4.300000000000001 = true).
Proof.
  split; [|split].
  - split; [reflexivity|]. intros H. vm_compute in H. discriminate H.
  - split; [|split]; vm_compute; reflexivity.
  - eexists. split; [reflexivity|].
    split; [vm_compute; reflexivity|].
    split; vm_compute; reflexivity.
Qed.

(** C8 (amended). In exact arithmetic: on every constant field the
    Laplacian is zero at every cell and, with no non-linear term and no
    noise, one step returns the field unchanged; when the field has more
    than one cell and one cell is raised, the Laplacian is negative at that
    cell and positive at each of its neighbours, and the step keeps the
    total sum. *)
Theorem flat_field_scenario (r c : nat) (x v : Q) :
  (forall i j, (i < r)%nat -> (j < c)%nat -> get (laplace (full r c x)) i j == 0) /\
  (exists h', ew_step v (full r c x) = Ok h' /\ array_eq h' (full r c x)) /\
  (forall i0 j0 y, (i0 < r)%nat -> (j0 < c)%nat -> x < y -> (1 < r * c)%nat ->
     let p := perturb (full r c x) i0 j0 y in
     get (laplace p) i0 j0 < 0 /\
     (forall i j, (i < r)%nat -> (j < c)%nat -> adjacent i0 j0 i j ->
        0 < get (laplace p) i j) /\
     exists p', ew_step v p = Ok p' /\ np_sum p' == np_sum p).
Proof.
  split; [|split].
  - intros i j. apply laplace_full.
  - eexists. split; [apply ew_step_ok|].
    split; [split; reflexivity|]. cbn [shape0 shape1 zip_with2 tabulate full].
    fold (full r c x). intros i j Hi Hj.
    rewrite get_zip, get_scalar_mul, laplace_full by assumption. ring.
  - intros i0 j0 y Hi0 Hj0 Hxy Hrc p. split; [|split].
    + apply laplace_at_raised_cell; assumption.
    + intros i j Hi Hj Hadj. apply laplace_next_to_raised_cell; assumption.
    + apply (ew_step_mass v p). apply wf2_perturb, wf2_full.
Qed.

Lemma flat_field_scenario_witness :
  let p := perturb (full 4 4 5) 1 1 10 in
  get (laplace p) 1 1 < 0 /\
  (forall i j, (i < 4)%nat -> (j < 4)%nat -> adjacent 1 1 i j ->
     0 < get (laplace p) i j) /\
  exists p', ew_step (1 # 10) p = Ok p' /\ np_sum p' == np_sum p.
Proof.
  apply (flat_field_scenario 4 4 5 (1 # 10)); try lia. reflexivity.
Defined.

(** ** Mass growth under the non-linear term *)

Lemma Qsq_nonneg (x : Q) : 0 <= x ^ 2.
Proof. assert (H : x ^ 2 == x * x) by ring. rewrite H. nra. Qed.

Lemma Qsq_zero (x : Q) : x ^ 2 == 0 -> x == 0.
Proof.
  intros H. assert (H' : x * x == 0) by (rewrite <- H; ring).
  apply Qmult_integral in H'. tauto.
Qed.

Lemma gradient_line_zero_const (n : nat) (line : nat -> Q) :
  (2 <= n)%nat ->
  (forall i, (i < n)%nat -> gradient_line n line i == 0) ->
  forall k, (k < n)%nat -> line k == line 0%nat.
Proof.
  intros Hn Hz k. induction k as [k IH] using lt_wf_ind. intros Hk.
  destruct k as [|[|k]].
  - reflexivity.
  - specialize (Hz 0%nat ltac:(lia)). unfold gradient_line in Hz. simpl in Hz. lra.
  - assert (Hg := Hz (S k) ltac:(lia)). unfold gradient_line in Hg.
    destruct (Nat.eqb_spec (S k) 0); [lia|].
    destruct (Nat.eqb_spec (S k) (n - 1)); [lia|].
    replace (S k + 1)%nat with (S (S k)) in Hg by lia.
    replace (S k - 1)%nat with k in Hg by lia.
    rewrite <- (IH k) by lia.
    assert (Hd : (line (S (S k)) - line k) / 2 * 2 == 0) by (rewrite Hg; ring).
    field_simplify in Hd. lra.
Qed.

Lemma gradient_line_const (n : nat) (line : nat -> Q) :
  (2 <= n)%nat ->
  (forall k, (k < n)%nat -> line k == line 0%nat) ->
  forall i, (i < n)%nat -> gradient_line n line i == 0.
Proof.
  intros Hn Hc i Hi. unfold gradient_line.
  destruct (Nat.eqb_spec i 0); [rewrite (Hc 1%nat) by lia; ring|].
  destruct (Nat.eqb_spec i (n - 1)).
  - rewrite (Hc (n - 1)%nat), (Hc (n - 2)%nat) by lia. ring.
  - rewrite (Hc (i + 1)%nat), (Hc (i - 1)%nat) by lia. field.
Qed.

Lemma squared_gradient_nonneg (h : ndarray2) (i j : nat) :
  0 <= squared_gradient_at h i j.
Proof.
  unfold squared_gradient_at.
  assert (H0 := Qsq_nonneg (gradient_line (shape0 h) (fun i' => get h i' j) i)).
  assert (H1 := Qsq_nonneg (gradient_line (shape1 h) (fun j' => get h i j') j)).
  lra.
Qed.

Lemma np_sum_grad_squared (h : ndarray2) :
  np_sum (grad_squared_value h) ==
  sumn (shape0 h) (fun i => sumn (shape1 h) (fun j => squared_gradient_at h i j)).
Proof.
  rewrite np_sum_get by apply wf2_tabulate. cbn [shape0 shape1 grad_squared_value zip_with2 tabulate square].
  apply sumn_ext. intros i Hi. apply sumn_ext. intros j Hj.
  rewrite <- get_grad_squared_value by assumption. reflexivity.
Qed.

Lemma np_sum_grad_squared_nonneg (h : ndarray2) : 0 <= np_sum (grad_squared_value h).
Proof.
  rewrite np_sum_grad_squared.
  apply sumn_nonneg. intros i _. apply sumn_nonneg. intros j _.
  apply squared_gradient_nonneg.
Qed.

(** The squared gradient vanishes everywhere exactly on flat fields. *)
Lemma np_sum_grad_squared_zero_iff (h : ndarray2) :
  (2 <= shape0 h)%nat -> (2 <= shape1 h)%nat ->
  np_sum (grad_squared_value h) == 0 <-> flat h.
Proof.
  intros H0 H1. rewrite np_sum_grad_squared. split.
  - intros Hz.
    assert (Hcell : forall i j, (i < shape0 h)%nat -> (j < shape1 h)%nat ->
              squared_gradient_at h i j == 0).
    { intros i j Hi Hj.
      apply (sumn_nonneg_zero (shape1 h) (fun j => squared_gradient_at h i j));
        [intros; apply squared_gradient_nonneg | | assumption].
      apply (sumn_nonneg_zero (shape0 h)
               (fun i => sumn (shape1 h) (fun j => squared_gradient_at h i j)));
        [|assumption|assumption].
      intros. apply sumn_nonneg. intros. apply squared_gradient_nonneg. }
    assert (Hrow : forall i j, (i < shape0 h)%nat -> (j < shape1 h)%nat ->
              get h i j == get h i 0%nat).
    { intros i j Hi Hj.
      apply (gradient_line_zero_const (shape1 h) (fun j' => get h i j')); try assumption.
      intros j' Hj'. apply Qsq_zero.
      assert (Hc := Hcell i j' Hi Hj'). unfold squared_gradient_at in Hc.
      assert (Ha := Qsq_nonneg (gradient_line (shape0 h) (fun i' => get h i' j') i)).
      assert (Hb := Qsq_nonneg (gradient_line (shape1 h) (fun j'' => get h i j'') j')).
      lra. }
    assert (Hcol : forall i, (i < shape0 h)%nat -> get h i 0%nat == get h 0%nat 0%nat).
    { intros i Hi.
      apply (gradient_line_zero_const (shape0 h) (fun i' => get h i' 0%nat)); try assumption.
      intros i' Hi'. apply Qsq_zero.
      assert (Hc := Hcell i' 0%nat Hi' ltac:(lia)). unfold squared_gradient_at in Hc.
      assert (Ha := Qsq_nonneg (gradient_line (shape0 h) (fun i'' => get h i'' 0%nat) i')).
      assert (Hb := Qsq_nonneg (gradient_line (shape1 h) (fun j' => get h i' j') 0%nat)).
      lra. }
    intros i j Hi Hj. rewrite Hrow, Hcol by assumption. reflexivity.
  - intros Hflat. apply sumn_zero. intros i Hi. apply sumn_zero. intros j Hj.
    unfold squared_gradient_at.
    rewrite (gradient_line_const (shape0 h) (fun i' => get h i' j)),
            (gradient_line_const (shape1 h) (fun j' => get h i j')); try assumption.
    + ring.
    + intros k Hk. cbn beta. rewrite (Hflat i k), (Hflat i 0%nat) by lia. reflexivity.
    + intros k Hk. cbn beta. rewrite (Hflat k j), (Hflat 0%nat j) by lia. reflexivity.
Qed.

Lemma np_sum_kpz_value (v l : Q) (h eta : ndarray2) :
  wf2 h -> wf2 eta -> same_shape h eta ->
  np_sum (zip_with2 Qplus h
            (zip_with2 Qplus
               (zip_with2 Qplus (scalar_mul v (laplace h))
                  (scalar_mul (l / 2) (grad_squared_value h)))
               eta)) ==
  np_sum h + (l / 2) * np_sum (grad_squared_value h) + np_sum eta.
Proof.
  intros Hh He Hs.
  rewrite !np_sum_zip_plus, !np_sum_scalar_mul, np_sum_laplace;
    try assumption; try apply wf2_tabulate; try (split; reflexivity).
  ring.
Qed.

(** C10 fails as stated, in two ways.  On the one-cell field [[10]] the KPZ
    loop body raises [ValueError] for every [v] and [l]: there is no
    stepped field whose sum could be compared.  And in binary64, with the
    notebook's [v = 0.1] and [l = 0.05]: the step returns the field
    [Float64.plateau] bit for bit (every increment [d_film] is below half a
    unit in the last place of the height it is added to), so that the sum
    is unchanged, however it is computed, although the field is not flat;
    and on [Float64.ripple] the sum after the step is smaller than the sum
    before it. *)
Lemma kpz_step_mass_not_growing :
  (forall v l, kpz_step v l (full 1 1 10) = Raise ValueError) /\
  (PrimFloat.ltb 0 Float64.l = true /\ PrimFloat.leb 0 Float64.v = true) /\
  (PrimFloat.ltb (Float64.get Float64.plateau 0 0)
                 (Float64.get Float64.plateau 1 1) = true /\
   Float64.kpz_step Float64.v Float64.l Float64.plateau = Ok Float64.plateau /\
   forall np_sum : Float64.ndarray2 -> float,
   exists h', Float64.kpz_step Float64.v Float64.l Float64.plateau = Ok h' /\
              np_sum h' = np_sum Float64.plateau) /\
  (exists h' s s',
     Float64.kpz_step Float64.v Float64.l Float64.ripple = Ok h' /\
     Float64.np_sum Float64.ripple = Some s /\
     Float64.np_sum h' = Some s' /\
     PrimFloat.ltb s' s = true).
Proof.
  split; [|split; [|split]].
  - intros v l. apply kpz_step_too_small. left. simpl. lia.
  - split; vm_compute; reflexivity.
  - assert (E : Float64.kpz_step Float64.v Float64.l Float64.plateau
                = Ok Float64.plateau) by (vm_compute; reflexivity).
    split; [vm_compute; reflexivity|]. split; [exact E|].
    intros np_sum. exists Float64.plateau. split; [exact E|reflexivity].
  - eexists _, _, _.
    split; [vm_compute; reflexivity|].
    split; [vm_compute; reflexivity|].
    split; vm_compute; reflexivity.
Qed.

(** C10 (amended).  In exact arithmetic, with a positive non-linear
    coefficient and no noise, one KPZ step on a field with at least two rows
    and two columns never decreases the total mass, whatever the surface
    tension, and the mass is unchanged exactly when the field is flat; on a
    field with an axis shorter than 2 the step raises [ValueError]
    ([np.gradient] needs two samples per axis). *)
Theorem kpz_step_mass_grows (v l : Q) (h : ndarray2) :
  wf2 h -> 0 < l ->
  if (2 <=? shape0 h)%nat && (2 <=? shape1 h)%nat
  then exists h', kpz_step v l h = Ok h' /\
                  np_sum h <= np_sum h' /\
                  (np_sum h' == np_sum h <-> flat h)
  else kpz_step v l h = Raise ValueError.
Proof.
  intros Hwf Hl.
  destruct (Nat.leb_spec 2 (shape0 h)) as [H0|H0];
    [destruct (Nat.leb_spec 2 (shape1 h)) as [H1|H1]|]; cbn [andb];
    [|apply kpz_step_too_small; right; exact H1
     |apply kpz_step_too_small; left; exact H0].
  eexists. split; [apply kpz_step_ok; assumption|].
  assert (Hsum :
    np_sum (zip_with2 Qplus h
              (zip_with2 Qplus (scalar_mul v (laplace h))
                 (scalar_mul (l / 2) (grad_squared_value h)))) ==
    np_sum h + (l / 2) * np_sum (grad_squared_value h)).
  { rewrite !np_sum_zip_plus, !np_sum_scalar_mul, np_sum_laplace;
      try assumption; try apply wf2_tabulate; try (split; reflexivity).
    ring. }
  rewrite Hsum.
  assert (Hg := np_sum_grad_squared_nonneg h).
  rewrite <- (np_sum_grad_squared_zero_iff h H0 H1).
  set (G := np_sum (grad_squared_value h)) in *.
  assert (Hl2 : 0 < l / 2) by (apply Qlt_shift_div_l; lra).
  generalize dependent (l / 2). intros k Hsum Hk.
  assert (HlG : 0 <= k * G) by (apply Qmult_le_0_compat; lra).
  split; [lra|]. split; intros HG.
  - assert (HG' : k * G == 0) by lra.
    apply Qmult_integral in HG'. destruct HG'; [lra|assumption].
  - rewrite HG. ring.
Qed.

Lemma kpz_step_mass_grows_witness :
  exists h', kpz_step (1 # 10) (1 # 20) ramp2 = Ok h' /\
             np_sum ramp2 <= np_sum h' /\
             (np_sum h' == np_sum ramp2 <-> flat ramp2).
Proof.
  apply (kpz_step_mass_grows (1 # 10) (1 # 20) ramp2).
  - reflexivity.
  - reflexivity.
Defined.

(** ** Shuffling *)

Lemma Qsum_Permutation (x y : list Q) : x ≡ₚ y -> Qsum x == Qsum y.
Proof.
  induction 1 as [|a x y _ IH|a b x|x y z _ IH1 _ IH2]; simpl.
  - reflexivity.
  - rewrite IH. reflexivity.
  - ring.
  - rewrite IH1. exact IH2.
Qed.

Section Shuffle.

Context {Gen : Generator}.

Lemma swap_ok (x : list Q) (i j : nat) :
  (i < length x)%nat -> (j < length x)%nat ->
  exists x', swap x i j = Ok x' /\ x' ≡ₚ x.
Proof.
  intros Hi Hj. unfold swap.
  destruct (lookup_lt_is_Some_2 x j Hj) as [xj Ej].
  destruct (lookup_lt_is_Some_2 x i Hi) as [xi Ei].
  rewrite Ej, Ei. eexists. split; [reflexivity|].
  apply Permutation_insert_swap; assumption.
Qed.

Lemma shuffle_from_ok (i : nat) (g : rng) (x : list Q) :
  (i < length x)%nat \/ i = 0%nat ->
  exists g' x', shuffle_from i g x = Ok (g', x') /\ x' ≡ₚ x.
Proof.
  revert g x. induction i as [|i IH]; intros g x Hi.
  - exists g, x. split; reflexivity.
  - destruct Hi as [Hi|Hi]; [|discriminate Hi].
    cbn [shuffle_from].
    assert (Hj := random_interval_le g (S i)).
    destruct (random_interval g (S i)) as [j g1]. cbn [fst] in Hj.
    destruct (swap_ok x (S i) j Hi ltac:(lia)) as (x1 & E1 & P1).
    rewrite E1. cbn [bind].
    destruct (IH g1 x1) as (g2 & x2 & E2 & P2).
    { left. rewrite P1. lia. }
    exists g2, x2. split; [exact E2|]. rewrite P2. exact P1.
Qed.

(** [shuffle] never raises and returns a permutation of its argument. *)
Lemma shuffle_ok (g : rng) (x : list Q) :
  exists g' x', shuffle g x = Ok (g', x') /\ x' ≡ₚ x.
Proof.
  unfold shuffle. apply shuffle_from_ok.
  destruct x; simpl; [right; reflexivity | left; lia].
Qed.

End Shuffle.

(** ** The bounded-choice array before shuffling *)

Lemma sumn_sign_below (m n : nat) :
  (n <= m)%nat -> sumn n (sign_from m) == - inject_Z (Z.of_nat n).
Proof.
  induction n as [|n IH]; intros Hn.
  - reflexivity.
  - cbn [sumn]. rewrite IH by lia. unfold sign_from.
    destruct (Nat.leb_spec m n); [lia|].
    rewrite Nat2Z.inj_succ. unfold Z.succ. rewrite inject_Z_plus. ring.
Qed.

Lemma sumn_sign_above (m d : nat) :
  sumn (m + d) (sign_from m) == inject_Z (Z.of_nat d) - inject_Z (Z.of_nat m).
Proof.
  induction d as [|d IH].
  - rewrite Nat.add_0_r, sumn_sign_below by lia. simpl. ring.
  - rewrite Nat.add_succ_r. cbn [sumn]. rewrite IH. unfold sign_from.
    destruct (Nat.leb_spec m (m + d)); [|lia].
    rewrite Nat2Z.inj_succ. unfold Z.succ. rewrite inject_Z_plus. ring.
Qed.

(** Half the rows at [-1], half at [+1]: an even number of rows sums to 0. *)
Lemma sumn_sign_even (n : nat) :
  Nat.Even n -> sumn n (sign_from (n / 2)) == 0.
Proof.
  intros [m ->].
  replace (2 * m / 2)%nat with m by (rewrite Nat.mul_comm, Nat.div_mul; lia).
  replace (2 * m)%nat with (m + m)%nat by lia.
  rewrite sumn_sign_above. ring.
Qed.

Lemma data_signed3 (t n m : nat) :
  data3 (set_rows_from3 (full3 t n n (-1)) m 1) =
  map (fun k => sign_from m ((k / n) mod n)) (seq 0 (t * (n * n))).
Proof.
  unfold set_rows_from3, full3. cbn [data3 dim1 dim2].
  apply list_eq. intros k.
  rewrite list_lookup_imap, list_lookup_fmap.
  destruct (Nat.lt_ge_cases k (t * (n * n))) as [Hk|Hk].
  - rewrite lookup_replicate_2, lookup_seq_lt by assumption. reflexivity.
  - rewrite (proj1 (lookup_replicate_None _ _ _)), lookup_seq_ge by assumption.
    reflexivity.
Qed.

Lemma data_signed2 (n m : nat) :
  data (set_rows_from2 (full n n (-1)) m 1) =
  map (fun k => sign_from m (k / n)) (seq 0 (n * n)).
Proof.
  unfold set_rows_from2, full. cbn [data shape0 shape1].
  apply list_eq. intros k.
  rewrite list_lookup_imap, list_lookup_fmap.
  destruct (Nat.lt_ge_cases k (n * n)) as [Hk|Hk].
  - rewrite lookup_replicate_2, lookup_seq_lt by assumption. reflexivity.
  - rewrite (proj1 (lookup_replicate_None _ _ _)), lookup_seq_ge by assumption.
    reflexivity.
Qed.

Lemma window_map_seq (f : nat -> Q) (s m N : nat) :
  (s + m <= N)%nat ->
  take m (drop s (map f (seq 0 N))) = map f (seq s m).
Proof.
  intros H. rewrite skipn_map, skipn_seq, firstn_map, take_seq.
  simpl. f_equal. f_equal. lia.
Qed.

Lemma drop_map_seq (f : nat -> Q) (s N : nat) :
  drop s (map f (seq 0 N)) = map f (seq s (N - s)).
Proof. rewrite skipn_map, skipn_seq. reflexivity. Qed.

(** Every layer of a half [-1], half [+1] array with an even number of rows
    sums to zero. *)
Lemma signed_layer_sum (n a : nat) :
  Nat.Even n ->
  sumn (n * n) (fun q => sign_from (n / 2) (((a * (n * n) + q) / n) mod n)) == 0.
Proof.
  intros Hev. rewrite sumn_flat.
  rewrite (sumn_ext n _ (fun i => sumn n (fun _ => sign_from (n / 2) i))).
  - rewrite sumn_swap. apply sumn_zero. intros j _. apply sumn_sign_even, Hev.
  - intros i Hi. apply sumn_ext. intros j Hj.
    replace (a * (n * n) + (i * n + j))%nat with ((a * n + i) * n + j)%nat by lia.
    rewrite Nat.div_add_l, (Nat.div_small j n), Nat.add_0_r by lia.
    rewrite (Nat.add_comm (a * n)), Nat.Div0.mod_add, Nat.mod_small by lia.
    reflexivity.
Qed.

Lemma signed_noise_layer_sum (t n i : nat) :
  Nat.Even n -> (i < t)%nat -> np_sum_layer (signed_noise t n) i == 0.
Proof.
  intros Hev Hi. unfold np_sum_layer, signed_noise.
  rewrite data_signed3. cbn [dim1 dim2 set_rows_from3 full3].
  rewrite window_map_seq by nia.
  rewrite Qsum_map_seq. apply signed_layer_sum, Hev.
Qed.

Lemma signed_noise_tail_sum (t n : nat) :
  Nat.Even n -> np_sum_tail (signed_noise t n) == 0.
Proof.
  intros Hev. unfold np_sum_tail, signed_noise.
  rewrite data_signed3. cbn [dim1 dim2 set_rows_from3 full3].
  rewrite drop_map_seq, Qsum_map_seq.
  replace (t * (n * n) - n * n)%nat with ((t - 1) * (n * n))%nat by nia.
  rewrite sumn_flat. apply sumn_zero. intros a _.
  rewrite (sumn_ext (n * n) _
             (fun q => sign_from (n / 2) (((S a * (n * n) + q) / n) mod n))).
  - apply signed_layer_sum, Hev.
  - intros q _.
    replace (n * n + (a * (n * n) + q))%nat with (S a * (n * n) + q)%nat by lia.
    reflexivity.
Qed.

Lemma signed_choice_sum (n : nat) :
  Nat.Even n -> np_sum (signed_choice n) == 0.
Proof.
  intros Hev. unfold np_sum, signed_choice. rewrite data_signed2.
  rewrite Qsum_map_seq.
  rewrite (sumn_ext (n * n) _
             (fun q => sign_from (n / 2) (((0 * (n * n) + q) / n) mod n))).
  - apply signed_layer_sum, Hev.
  - intros q Hq. cbn [Nat.mul Nat.add].
    rewrite (Nat.mod_small (q / n) n); [reflexivity|].
    apply Nat.Div0.div_lt_upper_bound. lia.
Qed.

Lemma wf3_signed_noise (t n : nat) : wf3 (signed_noise t n).
Proof.
  unfold wf3, signed_noise. rewrite data_signed3.
  rewrite length_map, length_seq. reflexivity.
Qed.

(** ** Layers of a three-dimensional array *)

Lemma Qsum_take_drop (m : nat) (x : list Q) :
  Qsum x == Qsum (take m x) + Qsum (drop m x).
Proof. rewrite <- Qsum_app, take_drop. reflexivity. Qed.

Lemma sumn_shift (n : nat) (g : nat -> Q) :
  sumn (S n) g == g 0%nat + sumn n (fun a => g (S a)).
Proof.
  induction n as [|n IH].
  - simpl. ring.
  - change (sumn (S (S n)) g) with (sumn (S n) g + g (S n)).
    rewrite IH. simpl. ring.
Qed.

(** A buffer of [t] layers sums to the sum of its layers' sums. *)
Lemma Qsum_layers (m t : nat) (x : list Q) :
  length x = (t * m)%nat ->
  sumn t (fun a => Qsum (take m (drop (a * m) x))) == Qsum x.
Proof.
  revert x. induction t as [|t IH]; intros x Hlen.
  - destruct x; [reflexivity|discriminate Hlen].
  - rewrite sumn_shift. cbn [Nat.mul drop].
    rewrite (Qsum_take_drop m x).
    rewrite <- (IH (drop m x)) by (rewrite length_drop; lia).
    apply Qplus_comp; [reflexivity|].
    apply sumn_ext. intros a _.
    rewrite drop_drop. reflexivity.
Qed.

(** ** The generated noise *)

Section Noise.

Context {Gen : Generator}.

(** Running the noise construction: it never raises, and leaves in [noise]
    the untouched first layer followed by a permutation of the rest. *)
Lemma make_noise_run (k : kernel) :
  let noise0 := signed_noise (T k) (L k) in
  let n := (L k * L k)%nat in
  exists g' x',
    x' ≡ₚ drop n (data3 noise0) /\
    make_noise k =
      (Ok tt, with_noise (with_shuffler k g')
                (Array3 (T k) (L k) (L k) (take n (data3 noise0) ++ x'))).
Proof.
  intros noise0 n.
  destruct (shuffle_ok (default_rng (seed_random k)) (drop n (data3 noise0)))
    as (g' & x' & E & P).
  exists g', x'. split; [exact P|].
  unfold make_noise, seq_stmt, mbind, assign, eval.
  cbn [noise shuffler with_noise with_shuffler L T dim0 dim1 dim2
       set_rows_from3 full3 seed_random].
  change (set_rows_from3 (full3 (T k) (L k) (L k) (-1)) (L k / 2) 1) with noise0.
  fold n. rewrite E. reflexivity.
Qed.

Lemma cell_noble_question_run (k : kernel) :
  let choice0 := signed_choice (L k) in
  exists g' x',
    x' ≡ₚ data choice0 /\
    cell_noble_question k =
      (Ok tt, with_gaussian
                (with_choice (with_shuffler k g') (Array2 (L k) (L k) x'))
                (fst (normal (default_rng (seed_random k)) (L k) (L k)))).
Proof.
  intros choice0.
  destruct (shuffle_ok (default_rng (seed_random k)) (data choice0))
    as (g' & x' & E & P).
  exists g', x'. split; [exact P|].
  unfold cell_noble_question, seq_stmt, mbind, assign, eval.
  cbn [choice shuffler with_choice with_shuffler with_gaussian L shape0 shape1
       set_rows_from2 full seed_random].
  change (set_rows_from2 (full (L k) (L k) (-1)) (L k / 2) 1) with choice0.
  rewrite E. reflexivity.
Qed.

Lemma np_sum_slice (a : ndarray3) (i : nat) (s : ndarray2) :
  slice a i = Ok s -> np_sum s = np_sum_layer a i.
Proof.
  unfold slice, np_sum_layer. destruct (i <? dim0 a)%nat; [|discriminate].
  intros [= <-]. reflexivity.
Qed.

Lemma signed_noise_sum (t n : nat) :
  Nat.Even n -> Qsum (data3 (signed_noise t n)) == 0.
Proof.
  intros Hev.
  rewrite <- (Qsum_layers (n * n) t) by apply wf3_signed_noise.
  apply sumn_zero. intros i Hi. apply (signed_noise_layer_sum t n i Hev Hi).
Qed.

(** The buffer past the first layer, after the shuffle has written through. *)
Lemma shuffled_tail (t n : nat) (x' : list Q) :
  let data0 := data3 (signed_noise t n) in
  x' ≡ₚ drop (n * n) data0 ->
  drop (n * n) (take (n * n) data0 ++ x') = x'.
Proof.
  intros data0.
  assert (Hlen : length data0 = (t * (n * n))%nat) by apply wf3_signed_noise.
  clearbody data0. intros P.
  destruct t as [|t].
  - destruct data0; [|discriminate Hlen].
    rewrite drop_nil in P. apply Permutation_nil_r in P. subst x'.
    rewrite take_nil. cbn [app]. apply drop_nil.
  - apply drop_app_length'. rewrite length_take. lia.
Qed.

(** C5. For an even grid size and every seed, the whole shuffled
    bounded-choice array sums to exactly zero, the shuffle being a
    permutation of an array that is half [-1] and half [+1]: this holds for
    the block [noise[1:,:,:]] whose sum the noise cells print, for the whole
    [noise] array, and for the [choice] array of the first cell. *)
Theorem bounded_noise_sums_to_zero (k : kernel) :
  Nat.Even (L k) ->
  (exists k', make_noise k = (Ok tt, k') /\
              np_sum_tail (noise k') == 0 /\ np_sum3 (noise k') == 0) /\
  (exists k', cell_noble_question k = (Ok tt, k') /\ np_sum (choice k') == 0).
Proof.
  intros Hev. split.
  - destruct (make_noise_run k) as (g' & x' & P & E).
    eexists. split; [exact E|].
    cbn [noise with_noise]. unfold np_sum_tail, np_sum3. cbn [dim1 dim2 data3].
    split.
    + rewrite shuffled_tail by exact P.
      rewrite (Qsum_Permutation _ _ P). apply signed_noise_tail_sum, Hev.
    + rewrite Qsum_app, (Qsum_Permutation _ _ P), <- Qsum_take_drop.
      apply signed_noise_sum, Hev.
  - destruct (cell_noble_question_run k) as (g' & x' & P & E).
    eexists. split; [exact E|].
    cbn [choice with_gaussian with_choice]. unfold np_sum. cbn [data].
    rewrite (Qsum_Permutation _ _ P). apply signed_choice_sum, Hev.
Qed.

(** C4 (amended). For an even grid size and every seed, the layers the time
    loop consumes, [noise[1,:,:]] to [noise[T-1,:,:]], sum to exactly zero
    taken together, and so does the untouched layer [noise[0,:,:]]; a single
    consumed layer is zero-sum when it is the only one ([T = 2]). *)
Theorem consumed_noise_layers_sum (k : kernel) :
  Nat.Even (L k) ->
  exists k', make_noise k = (Ok tt, k') /\
    sumn (T k - 1) (fun a => np_sum_layer (noise k') (S a)) == 0 /\
    ((0 < T k)%nat -> np_sum_layer (noise k') 0 == 0) /\
    (T k = 2%nat -> np_sum_layer (noise k') 1 == 0).
Proof.
  intros Hev.
  destruct (make_noise_run k) as (g' & x' & P & E).
  eexists. split; [exact E|].
  cbn [noise with_noise]. unfold np_sum_layer. cbn [dim1 dim2 data3].
  set (n := (L k * L k)%nat) in *.
  set (data0 := data3 (signed_noise (T k) (L k))) in *.
  assert (Hlen : length data0 = (T k * n)%nat) by apply wf3_signed_noise.
  assert (Hlen' : length x' = ((T k - 1) * n)%nat).
  { rewrite (Permutation_length P), length_drop, Hlen. nia. }
  assert (Hlayers :
    sumn (T k - 1) (fun a => Qsum (take n (drop (S a * n) (take n data0 ++ x')))) == 0).
  { destruct (T k) as [|t] eqn:ET; [reflexivity|].
    rewrite (sumn_ext _ _ (fun a => Qsum (take n (drop (a * n) x')))).
    - rewrite Qsum_layers by exact Hlen'.
      rewrite (Qsum_Permutation _ _ P).
      unfold data0, n.
      apply (signed_noise_tail_sum (S t) (L k) Hev).
    - intros a _. cbn [Nat.mul].
      rewrite drop_app_add' by (rewrite length_take; lia). reflexivity. }
  split; [exact Hlayers|]. split.
  - intros HT. cbn [Nat.mul]. rewrite drop_0.
    rewrite take_app_length' by (rewrite length_take; nia).
    change (Qsum (take n data0)) with (np_sum_layer (signed_noise (T k) (L k)) 0).
    apply (signed_noise_layer_sum (T k) (L k) 0 Hev HT).
  - intros HT. rewrite HT in Hlayers. cbn [sumn Nat.sub] in Hlayers.
    rewrite <- Hlayers. ring.
Qed.

(** C9. The generated noise depends on the seed alone: from any two
    namespaces that agree on [L], [T] and [seed_random] (whatever generator
    state, film or earlier noise they hold), the noise construction has the
    same outcome and leaves identical [noise] arrays, and the first cell
    leaves identical [choice] and [gaussian] arrays. *)
Theorem noise_reproducible (k1 k2 : kernel) :
  same_noise_inputs k1 k2 ->
  (fst (make_noise k1) = fst (make_noise k2) /\
   noise (snd (make_noise k1)) = noise (snd (make_noise k2))) /\
  (fst (cell_noble_question k1) = fst (cell_noble_question k2) /\
   choice (snd (cell_noble_question k1)) = choice (snd (cell_noble_question k2)) /\
   gaussian (snd (cell_noble_question k1)) = gaussian (snd (cell_noble_question k2))).
Proof.
  intros (HL & HT & Hseed).
  destruct k1 as [L1 T1 v1 l1 m1 si1 sr1 sh1 ch1 ga1 fi1 no1].
  destruct k2 as [L2 T2 v2 l2 m2 si2 sr2 sh2 ch2 ga2 fi2 no2].
  cbn [L T seed_random] in HL, HT, Hseed. subst L2 T2 sr2.
  split.
  - unfold make_noise, seq_stmt, mbind, assign, eval.
    cbn [noise shuffler with_noise with_shuffler L T dim0 dim1 dim2 seed_random
         set_rows_from3 full3 data3].
    match goal with
    | |- context [shuffle ?g ?x] =>
        destruct (shuffle_ok g x) as (g' & x' & E & _); rewrite E
    end.
    split; reflexivity.
  - unfold cell_noble_question, seq_stmt, mbind, assign, eval.
    cbn [choice shuffler with_choice with_shuffler with_gaussian L shape0 shape1
         seed_random set_rows_from2 full data].
    match goal with
    | |- context [shuffle ?g ?x] =>
        destruct (shuffle_ok g x) as (g' & x' & E & _); rewrite E
    end.
    repeat split; reflexivity.
Qed.

End Noise.

(** C4 fails as stated: with three time steps on a 2x2 grid the shuffle
    spans both consumed layers, and for seed 0 of the sample generator layer
    1 receives four [-1] entries. *)
Lemma noise_layer_not_zero_sum :
  let k' := snd (make_noise (demo_kernel 2 3 0)) in
  fst (make_noise (demo_kernel 2 3 0)) = Ok tt /\
  Nat.Even (L (demo_kernel 2 3 0)) /\
  slice (noise k') 1 = Ok (Array2 2 2 [-1; -1; -1; -1]) /\
  np_sum (Array2 2 2 [-1; -1; -1; -1]) == - (4) /\
  ~ (np_sum (Array2 2 2 [-1; -1; -1; -1]) == 0).
Proof.
  split; [vm_compute; reflexivity|].
  split; [exists 1%nat; reflexivity|].
  split; [vm_compute; reflexivity|].
  split; [reflexivity|]. intros H. vm_compute in H. discriminate H.
Qed.

Lemma consumed_noise_layers_sum_witness :
  exists k', make_noise (demo_kernel 2 3 0) = (Ok tt, k') /\
    sumn (3 - 1) (fun a => np_sum_layer (noise k') (S a)) == 0 /\
    ((0 < 3)%nat -> np_sum_layer (noise k') 0 == 0) /\
    (3%nat = 2%nat -> np_sum_layer (noise k') 1 == 0).
Proof.
  apply (consumed_noise_layers_sum (demo_kernel 2 3 0)).
  exists 1%nat. reflexivity.
Defined.

Lemma noise_reproducible_witness :
  noise (snd (make_noise (demo_kernel 2 3 5))) =
  noise (snd (make_noise
    (with_noise (with_shuffler (demo_kernel 2 3 5) 99%N) (full3 1 1 1 7)))).
Proof.
  apply (noise_reproducible (demo_kernel 2 3 5)
           (with_noise (with_shuffler (demo_kernel 2 3 5) 99%N) (full3 1 1 1 7))).
  repeat split; reflexivity.
Defined.

Lemma bounded_noise_sums_to_zero_witness :
  exists k', make_noise (demo_kernel 2 3 0) = (Ok tt, k') /\
             np_sum_tail (noise k') == 0 /\ np_sum3 (noise k') == 0.
Proof.
  apply (bounded_noise_sums_to_zero (demo_kernel 2 3 0)).
  exists 1%nat. reflexivity.
Defined.

(** ** Reading and assigning layers *)

Lemma layer_update_same (n i : nat) (x new : list Q) :
  (i * n <= length x)%nat -> length new = n ->
  take n (drop (i * n) (take (i * n) x ++ new ++ drop ((i + 1) * n) x)) = new.
Proof.
  intros Hx Hn.
  rewrite drop_app_length' by (rewrite length_take; lia).
  apply take_app_length'. symmetry. exact Hn.
Qed.

Lemma layer_update_other (n i j : nat) (x new : list Q) :
  ((i + 1) * n <= length x)%nat -> length new = n -> j <> i ->
  take n (drop (j * n) (take (i * n) x ++ new ++ drop ((i + 1) * n) x)) =
  take n (drop (j * n) x).
Proof.
  intros Hx Hn Hji. apply list_eq. intros q.
  destruct (Nat.lt_ge_cases q n) as [Hq|Hq].
  - rewrite !lookup_take_lt, !lookup_drop by assumption.
    destruct (Nat.lt_ge_cases j i) as [Hlt|Hge].
    + rewrite lookup_app_l by (rewrite length_take; nia).
      apply lookup_take_lt. nia.
    + rewrite lookup_app_r by (rewrite length_take; nia).
      rewrite lookup_app_r by (rewrite length_take; nia).
      rewrite lookup_drop, length_take. f_equal. nia.
  - rewrite !lookup_take_ge by assumption. reflexivity.
Qed.

Lemma tabulate_bget_id (x : ndarray2) :
  wf2 x -> tabulate (shape0 x) (shape1 x) (bget x) = x.
Proof.
  destruct x as [r c d]. unfold wf2, tabulate. cbn [shape0 shape1 data].
  intros Hwf. f_equal. apply list_eq. intros q.
  rewrite list_lookup_fmap.
  destruct (Nat.lt_ge_cases q (r * c)) as [Hq|Hq].
  - rewrite lookup_seq_lt by assumption. cbn [fmap option_fmap option_map Nat.add].
    assert (Hc : c <> 0%nat) by (intros ->; lia).
    rewrite bget_in.
    + unfold get. cbn [shape1 data].
      replace (q / c * c + q mod c)%nat with q
        by (rewrite (Nat.div_mod_eq q c) at 1; lia).
      destruct (nth_lookup_or_length d q 0) as [E|E]; [rewrite E; reflexivity|lia].
    + cbn [shape0]. apply Nat.Div0.div_lt_upper_bound. lia.
    + cbn [shape1]. apply Nat.mod_upper_bound. exact Hc.
  - rewrite lookup_seq_ge by assumption. symmetry.
    apply lookup_ge_None. lia.
Qed.

Lemma slice_ok (a : ndarray3) (i : nat) :
  (i < dim0 a)%nat ->
  slice a i =
  Ok (Array2 (dim1 a) (dim2 a)
        (take (dim1 a * dim2 a) (drop (i * (dim1 a * dim2 a)) (data3 a)))).
Proof.
  intros Hi. unfold slice.
  destruct (Nat.ltb_spec i (dim0 a)); [reflexivity|lia].
Qed.

Lemma wf2_slice (a : ndarray3) (i : nat) (h : ndarray2) :
  wf3 a -> slice a i = Ok h ->
  wf2 h /\ shape0 h = dim1 a /\ shape1 h = dim2 a.
Proof.
  unfold wf3, slice. intros Hwf.
  destruct (Nat.ltb_spec i (dim0 a)) as [Hi|Hi]; [|discriminate].
  intros [= <-]. unfold wf2. cbn [shape0 shape1 data].
  rewrite length_take, length_drop, Hwf. repeat split. nia.
Qed.

(** Assigning a value of the layer's shape to layer [i]: the layer reads
    back as that value and every other layer is untouched. *)
Lemma set_slice_ok (a : ndarray3) (i : nat) (x : ndarray2) :
  wf3 a -> wf2 x -> (i < dim0 a)%nat ->
  shape0 x = dim1 a -> shape1 x = dim2 a ->
  exists a',
    set_slice a i x = Ok a' /\
    wf3 a' /\
    (dim0 a' = dim0 a /\ dim1 a' = dim1 a /\ dim2 a' = dim2 a) /\
    slice a' i = Ok x /\
    forall j, j <> i -> slice a' j = slice a j.
Proof.
  intros Hwf Hx Hi H0 H1. unfold set_slice.
  destruct (Nat.ltb_spec i (dim0 a)); [|lia].
  unfold broadcastable_to. rewrite H0, H1, !Nat.eqb_refl. cbn [orb andb].
  rewrite <- H0, <- H1, (tabulate_bget_id x Hx).
  eexists. split; [reflexivity|].
  unfold wf3, wf2 in *.
  assert (Hlen : ((i + 1) * (shape0 x * shape1 x) <= length (data3 a))%nat)
    by (rewrite Hwf, <- H0, <- H1; nia).
  split; [|split; [|split]].
  - cbn [data3 dim0 dim1 dim2].
    rewrite !length_app, length_take, length_drop, Hx, Hwf, <- H0, <- H1. nia.
  - cbn [dim0 dim1 dim2]. rewrite H0, H1. repeat split.
  - unfold slice. cbn [dim0 dim1 dim2 data3].
    destruct (Nat.ltb_spec i (dim0 a)); [|lia].
    rewrite layer_update_same by (try exact Hx; lia).
    destruct x; reflexivity.
  - intros j Hj. unfold slice. cbn [dim0 dim1 dim2 data3].
    rewrite <- H0, <- H1.
    destruct (j <? dim0 a)%nat; [|reflexivity].
    rewrite layer_update_other by (try exact Hx; assumption). reflexivity.
Qed.

(** ** The loop bodies as statements *)

Section Bodies.

Context {Gen : Generator}.

(** A loop body that raises has assigned nothing. *)
Lemma assign_layer_raise (i : nat) (step : kernel -> ndarray2 -> result ndarray2)
    (k k' : kernel) (e : exception) :
  assign_layer i step k = (Raise e, k') -> k' = k.
Proof.
  unfold assign_layer, mbind, eval, assign.
  destruct (let* h := slice (film k) (i - 1) in _) as [f|e']; intros [= ]; congruence.
Qed.

(** A loop body whose right-hand side evaluates to [h'] assigns exactly
    layer [i]. *)
Lemma assign_layer_run (i : nat) (step : kernel -> ndarray2 -> result ndarray2)
    (k : kernel) (h h' : ndarray2) :
  wf3 (film k) -> (i < dim0 (film k))%nat ->
  slice (film k) (i - 1) = Ok h -> step k h = Ok h' ->
  wf2 h' -> same_shape h' h ->
  exists film',
    assign_layer i step k = (Ok tt, with_film k film') /\
    wf3 film' /\
    (dim0 film' = dim0 (film k) /\ dim1 film' = dim1 (film k)
     /\ dim2 film' = dim2 (film k)) /\
    slice film' i = Ok h' /\
    forall j, j <> i -> slice film' j = slice (film k) j.
Proof.
  intros Hwf Hi Hh Hstep Hwf' [Hs0 Hs1].
  destruct (wf2_slice _ _ _ Hwf Hh) as (_ & Hd1 & Hd2).
  destruct (set_slice_ok (film k) i h' Hwf Hwf' Hi) as (film' & E & P); [congruence..|].
  exists film'. split; [|exact P].
  unfold assign_layer, mbind, eval, assign.
  rewrite Hh. cbn [bind]. rewrite Hstep. cbn [bind]. rewrite E. reflexivity.
Qed.

End Bodies.

(** ** Outcomes of the KPZ step *)

Lemma np_add_broadcast (a b : ndarray2) :
  (2 <= shape0 a)%nat -> (2 <= shape1 a)%nat ->
  if noise_fits a b
  then exists d, np_add a b = Ok d /\ same_shape d a /\ wf2 d
  else np_add a b = Raise ValueError.
Proof.
  intros H0 H1. unfold noise_fits, broadcastable_to, np_add, broadcast_dim.
  destruct (Nat.eqb_spec (shape0 a) (shape0 b)) as [E0|E0];
    destruct (Nat.eqb_spec (shape0 b) (shape0 a)); try congruence;
    destruct (Nat.eqb_spec (shape1 a) (shape1 b)) as [E1|E1];
    destruct (Nat.eqb_spec (shape1 b) (shape1 a)); try congruence;
    destruct (Nat.eqb_spec (shape0 a) 1); try lia;
    destruct (Nat.eqb_spec (shape1 a) 1); try lia;
    destruct (Nat.eqb_spec (shape0 b) 1);
    destruct (Nat.eqb_spec (shape1 b) 1);
    cbn [orb andb]; try reflexivity;
    (eexists; split; [reflexivity|];
     split; [split; reflexivity | apply wf2_tabulate]).
Qed.

Lemma kpz_noise_step_broadcast (v l : Q) (h eta : ndarray2) :
  (2 <= shape0 h)%nat -> (2 <= shape1 h)%nat ->
  if noise_fits h eta
  then exists h', kpz_noise_step v l h eta = Ok h' /\ same_shape h' h /\ wf2 h'
  else kpz_noise_step v l h eta = Raise ValueError.
Proof.
  intros H0 H1. unfold kpz_noise_step.
  rewrite grad_squared_ok by assumption. cbn [bind].
  rewrite np_add_same_shape by (split; reflexivity). cbn [bind].
  set (s := zip_with2 Qplus _ _).
  assert (Hb := np_add_broadcast s eta H0 H1).
  change (noise_fits s eta) with (noise_fits h eta) in Hb.
  destruct (noise_fits h eta).
  - destruct Hb as (d & E & Hs & Hwf). rewrite E. cbn [bind].
    assert (Hs' : same_shape h d) by (destruct Hs; split; symmetry; assumption).
    rewrite np_add_same_shape by exact Hs'.
    eexists. split; [reflexivity|].
    split; [split; reflexivity | apply wf2_tabulate].
  - rewrite Hb. reflexivity.
Qed.

(** C6 fails as stated: the loop body carries no shape check of its own.  A
    non-square 2x3 field with a matching noise slice is stepped without any
    error, and so is a 2x2 field with a 1x1 noise slice (broadcast). *)
Lemma nonsquare_field_accepted :
  shape0 slab23 <> shape1 slab23 /\
  (exists h', kpz_noise_step (1 # 10) (1 # 20) slab23 (full 2 3 0) = Ok h') /\
  (exists h', ew_noise_step (1 # 10) slab23 (full 2 3 0) = Ok h') /\
  ~ same_shape ramp2 (full 1 1 1) /\
  (exists h', kpz_noise_step (1 # 10) (1 # 20) ramp2 (full 1 1 1) = Ok h').
Proof.
  split; [simpl; lia|].
  split; [eexists; vm_compute; reflexivity|].
  split; [eexists; vm_compute; reflexivity|].
  split; [intros [H _]; simpl in H; lia|].
  eexists; vm_compute; reflexivity.
Qed.

Section Steps.

Context {Gen : Generator}.

(** C6 (amended). The KPZ loop body validates nothing itself and knows no
    [InvalidInput]: it returns a field of the input's shape, square or not,
    whenever the field has at least two rows and two columns and the noise
    slice has the field's shape or broadcasts to it, and raises NumPy's
    [ValueError] in every other case; a loop body that raises has assigned
    nothing, so the film is as it was before the step. *)
Theorem step_failure_modes (nu lam : Q) (h eta : ndarray2) (i : nat) (k : kernel) :
  (if ((2 <=? shape0 h) && (2 <=? shape1 h))%nat && noise_fits h eta
   then exists h', kpz_noise_step nu lam h eta = Ok h' /\ same_shape h' h
   else kpz_noise_step nu lam h eta = Raise ValueError) /\
  (forall body, In body [ew_body; ew_noise_body; kpz_body; kpz_noise_body] ->
     forall e k', body i k = (Raise e, k') -> k' = k).
Proof.
  split.
  - destruct (Nat.leb_spec 2 (shape0 h)) as [H0|H0];
      [destruct (Nat.leb_spec 2 (shape1 h)) as [H1|H1]|]; cbn [andb].
    + assert (Hb := kpz_noise_step_broadcast nu lam h eta H0 H1).
      destruct (noise_fits h eta); [|exact Hb].
      destruct Hb as (h' & E & Hs & _). exists h'. split; assumption.
    + apply kpz_noise_step_too_small. right. lia.
    + apply kpz_noise_step_too_small. left. lia.
  - intros body Hin e k' Hr.
    cbn [In] in Hin.
    destruct Hin as [<-|[<-|[<-|[<-|[]]]]];
      exact (assign_layer_raise _ _ _ _ _ Hr).
Qed.

(** C7. One KPZ-with-noise loop body is a function of what it reads and
    leaves its input alone.  From two namespaces that agree on [v], [l], the
    previous layer [film[i-1,:,:]] and the noise slice [noise[i,:,:]], both
    runs succeed and assign the same new layer [film[i,:,:]]; the previous
    layer reads back unchanged afterwards, as does every layer other than
    [i]. *)
Theorem step_deterministic_nonmutating (k1 k2 : kernel) (i : nat) :
  layers_ready k1 -> layers_ready k2 ->
  (1 <= i < T k1)%nat -> (2 <= L k1)%nat ->
  T k1 = T k2 -> L k1 = L k2 -> v k1 = v k2 -> l k1 = l k2 ->
  slice (film k1) (i - 1) = slice (film k2) (i - 1) ->
  slice (noise k1) i = slice (noise k2) i ->
  exists h eta h' film1 film2,
    slice (film k1) (i - 1) = Ok h /\
    slice (noise k1) i = Ok eta /\
    kpz_noise_step (v k1) (l k1) h eta = Ok h' /\
    kpz_noise_body i k1 = (Ok tt, with_film k1 film1) /\
    kpz_noise_body i k2 = (Ok tt, with_film k2 film2) /\
    slice film1 i = Ok h' /\
    slice film2 i = Ok h' /\
    slice film1 (i - 1) = Ok h /\
    (forall j, j <> i -> slice film1 j = slice (film k1) j).
Proof.
  intros (Wf1 & Wn1 & (Df0 & Df1 & Df2) & (Dn0 & Dn1 & Dn2))
         (Wf2 & Wn2 & (Ef0 & Ef1 & Ef2) & (En0 & En1 & En2))
         Hi HL HT HLL Hv Hl Hfilm Hnoise.
  assert (Hh := slice_ok (film k1) (i - 1) ltac:(lia)).
  assert (Heta := slice_ok (noise k1) i ltac:(lia)).
  set (h := Array2 _ _ _) in Hh. set (eta := Array2 _ _ _) in Heta.
  assert (Hshape : same_shape h eta) by (split; cbn; congruence).
  assert (Hstep : kpz_noise_step (v k1) (l k1) h eta = Ok
            (zip_with2 Qplus h
               (zip_with2 Qplus
                  (zip_with2 Qplus (scalar_mul (v k1) (laplace h))
                     (scalar_mul (l k1 / 2) (grad_squared_value h))) eta)))
    by (apply kpz_noise_step_ok; [cbn; lia | cbn; lia | exact Hshape]).
  set (h' := zip_with2 Qplus h _) in Hstep.
  destruct (assign_layer_run i
              (fun k h => let* eta := slice (noise k) i in
                          kpz_noise_step (v k) (l k) h eta)
              k1 h h' Wf1 ltac:(lia) Hh)
    as (film1 & E1 & _ & _ & S1 & O1).
  { rewrite Heta. exact Hstep. }
  { apply wf2_tabulate. }
  { split; reflexivity. }
  destruct (assign_layer_run i
              (fun k h => let* eta := slice (noise k) i in
                          kpz_noise_step (v k) (l k) h eta)
              k2 h h' Wf2 ltac:(lia))
    as (film2 & E2 & _ & _ & S2 & _).
  { rewrite <- Hfilm. exact Hh. }
  { rewrite <- Hnoise, Heta, <- Hv, <- Hl. exact Hstep. }
  { apply wf2_tabulate. }
  { split; reflexivity. }
  exists h, eta, h', film1, film2.
  repeat split; try assumption.
  rewrite O1 by lia. exact Hh.
Qed.

End Steps.

Lemma step_deterministic_nonmutating_witness :
  exists h eta h' film1 film2,
    slice (film demo_ready) (1 - 1) = Ok h /\
    slice (noise demo_ready) 1 = Ok eta /\
    kpz_noise_step (v demo_ready) (l demo_ready) h eta = Ok h' /\
    kpz_noise_body 1 demo_ready = (Ok tt, with_film demo_ready film1) /\
    kpz_noise_body 1 (with_shuffler demo_ready 99%N)
      = (Ok tt, with_film (with_shuffler demo_ready 99%N) film2) /\
    slice film1 1 = Ok h' /\
    slice film2 1 = Ok h' /\
    slice film1 (1 - 1) = Ok h /\
    (forall j, j <> 1%nat -> slice film1 j = slice (film demo_ready) j).
Proof.
  apply (step_deterministic_nonmutating demo_ready (with_shuffler demo_ready 99%N) 1).
  - repeat split; reflexivity.
  - repeat split; reflexivity.
  - simpl. lia.
  - simpl. lia.
  - reflexivity.
  - reflexivity.
  - reflexivity.
  - reflexivity.
  - reflexivity.
  - reflexivity.
Defined.

(** ** The head of a simulation cell and the whole EW loop *)

Section Loops.

Context {Gen : Generator}.

Lemma length_draws (n : nat) (next : rng -> Q * rng) (g : rng) :
  length (fst (draws n next g)) = n.
Proof.
  revert g. induction n as [|n IH]; intros g; cbn [draws].
  - reflexivity.
  - destruct (next g) as [x g1]. specialize (IH g1).
    destruct (draws n next g1) as [xs g2]. cbn [fst length] in *.
    rewrite IH. reflexivity.
Qed.

Lemma uniform_ok (g : rng) (low high : Q) (r c : nat) :
  low <= high ->
  uniform g low high r c =
  Ok (Array2 r c (map (fun u => low + (high - low) * u)
                    (fst (draws (r * c) next_double g))),
      snd (draws (r * c) next_double g)).
Proof.
  intros H. unfold uniform.
  destruct (Qlt_le_dec (high - low) 0) as [Hneg|_]; [lra|].
  destruct (draws (r * c) next_double g) as [us g1]. reflexivity.
Qed.

Lemma uniform_negative_range (g : rng) (low high : Q) (r c : nat) :
  high < low -> uniform g low high r c = Raise ValueError.
Proof.
  intros H. unfold uniform.
  destruct (Qlt_le_dec (high - low) 0) as [_|Hpos]; [reflexivity|lra].
Qed.

Lemma uniform_shape (g : rng) (low high : Q) (r c : nat) :
  low <= high ->
  exists u g',
    uniform g low high r c = Ok (u, g') /\
    wf2 u /\ shape0 u = r /\ shape1 u = c.
Proof.
  intros H. rewrite (uniform_ok g low high r c H).
  eexists _, _. split; [reflexivity|].
  unfold wf2. cbn [shape0 shape1 data].
  rewrite length_map, length_draws. auto.
Qed.

Lemma wf3_full3 (t r c : nat) (x : Q) : wf3 (full3 t r c x).
Proof. unfold wf3, full3. cbn. apply length_replicate. Qed.

(** Initialising the film succeeds as soon as there is a first layer and
    the range of starting heights is not negative. *)
Lemma init_film_run (k : kernel) :
  (0 < T k)%nat -> 0 <= max_starting_height k ->
  exists film0,
    init_film k = (Ok tt, with_film k film0) /\
    wf3 film0 /\
    dim0 film0 = T k /\ dim1 film0 = L k /\ dim2 film0 = L k.
Proof.
  intros HT Hmax.
  destruct (uniform_shape (default_rng (seed_init k)) 0 (max_starting_height k)
              (L k) (L k) Hmax) as (u & g' & Eu & Hu & Hu0 & Hu1).
  destruct (set_slice_ok (full3 (T k) (L k) (L k) 0) 0 _ (wf3_full3 _ _ _ _) Hu)
    as (film0 & E & Hwf & (D0 & D1 & D2) & _); [exact HT | exact Hu0 | exact Hu1 |].
  exists film0. split; [|auto].
  unfold init_film, seq_stmt, mbind, assign, eval.
  cbn [film with_film T L seed_init max_starting_height].
  rewrite Eu. cbn [bind fst]. rewrite E. reflexivity.
Qed.

(** With a negative [max_starting_height] the draw raises before anything
    is stored: [film] stays bound to the zero array just created. *)
Lemma init_film_negative_range (k : kernel) :
  max_starting_height k < 0 ->
  init_film k = (Raise ValueError, with_film k (full3 (T k) (L k) (L k) 0)).
Proof.
  intros Hmax.
  unfold init_film, seq_stmt, mbind, assign, eval.
  cbn [film with_film T L seed_init max_starting_height].
  rewrite uniform_negative_range by exact Hmax. reflexivity.
Qed.

(** The sixteen reads of the plotting loop change nothing; they succeed
    exactly on a film of at least sixteen layers. *)
Lemma read_layers_run (n s : nat) (k : kernel) :
  for_each (seq s n) read_layer k =
  ((if (n =? 0)%nat || (s + n <=? dim0 (film k))%nat
    then Ok tt else Raise IndexError), k).
Proof.
  revert s. induction n as [|n IH]; intros s.
  - reflexivity.
  - cbn [seq for_each]. unfold seq_stmt, mbind.
    unfold read_layer at 1. unfold mbind, eval, slice, ret.
    destruct (s <? dim0 (film k))%nat eqn:Hs.
    + rewrite IH. apply Nat.ltb_lt in Hs.
      destruct n as [|n].
      * cbn [Nat.eqb orb]. destruct (Nat.leb_spec (s + 1) (dim0 (film k))); [reflexivity|lia].
      * cbn [Nat.eqb orb].
        destruct (Nat.leb_spec (S s + S n) (dim0 (film k))),
                 (Nat.leb_spec (s + S (S n)) (dim0 (film k))); try reflexivity; lia.
    + apply Nat.ltb_ge in Hs. cbn [Nat.eqb orb].
      destruct (Nat.leb_spec (s + S n) (dim0 (film k))); [lia|reflexivity].
Qed.

Lemma plot_film_run (k : kernel) :
  plot_film k =
  ((if (16 <=? dim0 (film k))%nat then Ok tt else Raise IndexError), k).
Proof.
  unfold plot_film.
  change (flat_map (fun i => map (fun j => (i * 4 + j)%nat) (seq 0 4)) (seq 0 4))
    with (seq 0 16).
  rewrite read_layers_run. reflexivity.
Qed.

(** X13. The head of a noise cell (film initialisation, then noise
    construction) succeeds as soon as there is a first layer and
    [max_starting_height] is not negative (a negative one makes [uniform]
    raise); it leaves well-formed [film] and [noise] arrays of shape
    [(T, L, L)] and does not touch the parameters. *)
Lemma simulation_head_ready (k : kernel) :
  (0 < T k)%nat -> 0 <= max_starting_height k ->
  exists k',
    seq_stmt init_film make_noise k = (Ok tt, k') /\
    layers_ready k' /\
    L k' = L k /\ T k' = T k /\ v k' = v k /\ l k' = l k.
Proof.
  intros HT Hmax.
  destruct (init_film_run k HT Hmax) as (film0 & E0 & Hwf & D0 & D1 & D2).
  destruct (make_noise_run (with_film k film0)) as (g' & x' & P & E1).
  cbn [T L with_film] in P, E1.
  eexists. split.
  - unfold seq_stmt, mbind. rewrite E0. exact E1.
  - unfold layers_ready.
    cbn [film noise with_noise with_shuffler with_film L T v l dim0 dim1 dim2 data3].
    repeat split; try assumption.
    unfold wf3. cbn [dim0 dim1 dim2 data3].
    assert (Hlen := wf3_signed_noise (T k) (L k)). unfold wf3 in Hlen.
    cbn [dim0 dim1 dim2 signed_noise set_rows_from3 full3] in Hlen.
    rewrite length_app, length_take, (Permutation_length P), length_drop.
    fold (signed_noise (T k) (L k)).
    change (set_rows_from3 (full3 (T k) (L k) (L k) (-1)) (L k / 2) 1)
      with (signed_noise (T k) (L k)) in Hlen.
    rewrite Hlen. nia.
Qed.

Lemma np_sum_layer_slice (a b : ndarray3) (i j : nat) :
  (i < dim0 a)%nat -> (j < dim0 b)%nat ->
  slice a i = slice b j -> np_sum_layer a i = np_sum_layer b j.
Proof.
  intros Hi Hj E.
  rewrite <- (np_sum_slice a i _ (slice_ok a i Hi)).
  rewrite <- (np_sum_slice b j _ (slice_ok b j Hj)).
  rewrite (slice_ok a i Hi), (slice_ok b j Hj) in E.
  injection E as -> -> ->. reflexivity.
Qed.

(** Running the EW loop body over [s, s+1, .., s+n-1]: every layer it
    assigns has the total of layer [s-1], and earlier layers are kept. *)
Lemma ew_loop_run (n s : nat) (k : kernel) :
  wf3 (film k) -> (1 <= s)%nat -> (s + n <= dim0 (film k))%nat ->
  exists k',
    for_each (seq s n) ew_body k = (Ok tt, k') /\
    wf3 (film k') /\
    (dim0 (film k') = dim0 (film k) /\ dim1 (film k') = dim1 (film k)
     /\ dim2 (film k') = dim2 (film k)) /\
    (forall j, (j < s)%nat -> slice (film k') j = slice (film k) j) /\
    (forall j, (s <= j < s + n)%nat ->
       np_sum_layer (film k') j == np_sum_layer (film k) (s - 1)).
Proof.
  revert s k. induction n as [|n IH]; intros s k Hwf Hs Hn.
  - exists k. cbn [seq for_each]. repeat split; try assumption. intros j Hj. lia.
  - assert (Hh := slice_ok (film k) (s - 1) ltac:(lia)).
    set (h := Array2 _ _ _) in Hh.
    destruct (wf2_slice _ _ _ Hwf Hh) as (Hwfh & _ & _).
    destruct (ew_step_mass (v k) h Hwfh) as (h' & Estep & Hmass).
    assert (Hh' : wf2 h' /\ same_shape h' h).
    { rewrite ew_step_ok in Estep. injection Estep as <-.
      split; [apply wf2_tabulate | split; reflexivity]. }
    destruct Hh' as (Hwfh' & Hsh).
    destruct (assign_layer_run s (fun k h => ew_step (v k) h) k h h'
                Hwf ltac:(lia) Hh Estep Hwfh' Hsh)
      as (film1 & E1 & Hwf1 & (D0 & D1 & D2) & S1 & O1).
    destruct (IH (S s) (with_film k film1)) as (k' & E' & Hwf' & (D0' & D1' & D2') & Keep & Mass).
    { exact Hwf1. }
    { lia. }
    { cbn [film with_film]. lia. }
    cbn [film with_film] in *.
    exists k'. split; [|split; [exact Hwf'|split; [|split]]].
    + cbn [seq for_each]. unfold seq_stmt, mbind.
      change (ew_body s k) with (assign_layer s (fun k h => ew_step (v k) h) k).
      rewrite E1. exact E'.
    + repeat split; congruence.
    + intros j Hj. rewrite Keep by lia. apply O1. lia.
    + intros j Hj.
      assert (Hs1 : np_sum_layer film1 s == np_sum_layer (film k) (s - 1)).
      { rewrite <- (np_sum_slice _ _ _ S1), <- (np_sum_slice _ _ _ Hh). exact Hmass. }
      destruct (Nat.eq_dec j s) as [->|Hne].
      * rewrite (np_sum_layer_slice (film k') film1 s s) by (try apply Keep; lia).
        exact Hs1.
      * rewrite Mass by lia.
        replace (S s - 1)%nat with s by lia. exact Hs1.
Qed.

(** X4. With a first layer and a non-negative [max_starting_height], the
    EW cell without noise initialises the film and runs its whole time loop;
    the plotting loop that ends the cell then reads sixteen layers, so the
    cell completes when [T >= 16] and stops there with [IndexError]
    otherwise.  In both cases every layer of the film it leaves has, in
    exact arithmetic, the total mass of the initial layer. *)
Lemma cell_diagnostic_tuesday_mass (k : kernel) :
  (0 < T k)%nat -> 0 <= max_starting_height k ->
  exists k',
    cell_diagnostic_tuesday k =
      ((if (16 <=? T k)%nat then Ok tt else Raise IndexError), k') /\
    forall i, (i < T k)%nat ->
      np_sum_layer (film k') i == np_sum_layer (film k') 0.
Proof.
  intros HT Hmax.
  destruct (init_film_run k HT Hmax) as (film0 & E0 & Hwf & D0 & D1 & D2).
  destruct (ew_loop_run (T k - 1) 1 (with_film k film0))
    as (k' & E' & Hwf' & (D0' & _ & _) & Keep & Mass);
    cbn [film with_film] in *; try assumption; try lia.
  exists k'. split.
  - unfold cell_diagnostic_tuesday, seq_stmt, mbind, time_loop. rewrite E0.
    cbn [T with_film]. rewrite E'. rewrite plot_film_run, D0', D0. reflexivity.
  - intros i Hi.
    assert (H0 : np_sum_layer (film k') 0 = np_sum_layer film0 0)
      by (apply np_sum_layer_slice; try apply Keep; lia).
    rewrite H0.
    destruct i as [|i]; [rewrite H0; reflexivity|].
    rewrite Mass by lia. reflexivity.
Qed.

End Loops.

(** * Further properties of the cells *)

(** ** The shuffle *)

Section ShuffleFacts.

Context {Gen : Generator}.

(** X1. Whatever the generator draws, [shuffle] on a flat view never raises
    and only reorders: the result is a permutation of the buffer, so it has
    the same length and the same sum. *)
Theorem shuffle_permutes (g : rng) (x : list Q) :
  exists g' x',
    shuffle g x = Ok (g', x') /\
    x' ≡ₚ x /\ length x' = length x /\ Qsum x' == Qsum x.
Proof.
  destruct (shuffle_ok g x) as (g' & x' & E & P).
  exists g', x'. split; [exact E|]. split; [exact P|]. split.
  - apply Permutation_length. exact P.
  - apply Qsum_Permutation. exact P.
Qed.

Lemma Forall_is_sign_signed_noise (t n : nat) :
  Forall is_sign (data3 (signed_noise t n)).
Proof.
  unfold signed_noise. rewrite data_signed3.
  apply List.Forall_forall. intros x Hx. apply in_map_iff in Hx.
  destruct Hx as (q & <- & _). unfold sign_from, is_sign.
  destruct (n / 2 <=? (q / n) mod n)%nat; [right|left]; reflexivity.
Qed.

(** X2. The noise construction always succeeds and leaves an array of shape
    [(T, L, L)] whose every entry is [-1] or [+1]; its first layer, which
    the shuffle does not reach, is still the unshuffled pattern. *)
Theorem make_noise_bounded (k : kernel) :
  exists k',
    make_noise k = (Ok tt, k') /\
    wf3 (noise k') /\
    (dim0 (noise k') = T k /\ dim1 (noise k') = L k /\ dim2 (noise k') = L k) /\
    Forall is_sign (data3 (noise k')) /\
    slice (noise k') 0 = slice (signed_noise (T k) (L k)) 0.
Proof.
  destruct (make_noise_run k) as (g' & x' & P & E).
  eexists. split; [exact E|].
  cbn [noise with_noise dim0 dim1 dim2 data3].
  set (n := (L k * L k)%nat) in *.
  set (data0 := data3 (signed_noise (T k) (L k))) in *.
  assert (Hlen : length data0 = (T k * n)%nat) by apply wf3_signed_noise.
  assert (Hsign : Forall is_sign data0) by apply Forall_is_sign_signed_noise.
  split; [|split; [auto|split]].
  - unfold wf3. cbn [dim0 dim1 dim2 data3]. fold n.
    rewrite length_app, length_take, (Permutation_length P), length_drop. nia.
  - apply Forall_app. split.
    + apply Forall_take. exact Hsign.
    + rewrite P. apply Forall_drop. exact Hsign.
  - unfold slice. cbn [dim0 dim1 dim2 data3 signed_noise set_rows_from3 full3].
    fold n. destruct (0 <? T k)%nat eqn:HT; [|reflexivity].
    apply Nat.ltb_lt in HT. cbn [Nat.mul]. rewrite !drop_0.
    f_equal. f_equal.
    rewrite take_app_le by (rewrite length_take; nia).
    rewrite take_take, Nat.min_id. reflexivity.
Qed.

End ShuffleFacts.

(** ** The bounded-choice sums for any grid size *)

Lemma sumn_const (n : nat) (c : Q) :
  sumn n (fun _ => c) == inject_Z (Z.of_nat n) * c.
Proof.
  induction n as [|n IH].
  - simpl. ring.
  - cbn [sumn]. rewrite IH, Nat2Z.inj_succ. unfold Z.succ.
    rewrite inject_Z_plus. ring.
Qed.

Lemma sumn_sign_half (n : nat) :
  sumn n (sign_from (n / 2)) == inject_Z (Z.of_nat (n mod 2)).
Proof.
  assert (Hdm := Nat.div_mod_eq n 2).
  assert (Hm : (n mod 2 < 2)%nat) by (apply Nat.mod_upper_bound; lia).
  set (m := (n / 2)%nat) in *. set (r := (n mod 2)%nat) in *.
  replace n with (m + (m + r))%nat at 1 by lia.
  rewrite sumn_sign_above.
  rewrite Nat2Z.inj_add, inject_Z_plus. ring.
Qed.

(** One layer of the unshuffled pattern sums to [n * (n mod 2)]: zero for
    an even number of rows, [n] (one surplus row of [+1]) for an odd one. *)
Lemma signed_layer_sum_any (n a : nat) :
  sumn (n * n) (fun q => sign_from (n / 2) (((a * (n * n) + q) / n) mod n))
  == inject_Z (Z.of_nat (n * (n mod 2))).
Proof.
  rewrite sumn_flat.
  rewrite (sumn_ext n _ (fun i => sumn n (fun _ => sign_from (n / 2) i))).
  - rewrite sumn_swap.
    rewrite (sumn_ext n _ (fun _ => inject_Z (Z.of_nat (n mod 2))))
      by (intros; apply sumn_sign_half).
    rewrite sumn_const, Nat2Z.inj_mul, inject_Z_mult. reflexivity.
  - intros i Hi. apply sumn_ext. intros j Hj.
    replace (a * (n * n) + (i * n + j))%nat with ((a * n + i) * n + j)%nat by lia.
    rewrite Nat.div_add_l, (Nat.div_small j n), Nat.add_0_r by lia.
    rewrite (Nat.add_comm (a * n)), Nat.Div0.mod_add, Nat.mod_small by lia.
    reflexivity.
Qed.

Lemma signed_noise_tail_sum_any (t n : nat) :
  np_sum_tail (signed_noise t n)
  == inject_Z (Z.of_nat ((t - 1) * (n * (n mod 2)))).
Proof.
  unfold np_sum_tail, signed_noise.
  rewrite data_signed3. cbn [dim1 dim2 set_rows_from3 full3].
  rewrite drop_map_seq, Qsum_map_seq.
  replace (t * (n * n) - n * n)%nat with ((t - 1) * (n * n))%nat by nia.
  rewrite sumn_flat.
  rewrite (sumn_ext (t - 1) _ (fun _ => inject_Z (Z.of_nat (n * (n mod 2))))).
  - rewrite sumn_const, (Nat2Z.inj_mul (t - 1)), inject_Z_mult. reflexivity.
  - intros a _.
    rewrite (sumn_ext (n * n) _
               (fun q => sign_from (n / 2) (((S a * (n * n) + q) / n) mod n))).
    + apply signed_layer_sum_any.
    + intros q _.
      replace (n * n + (a * (n * n) + q))%nat with (S a * (n * n) + q)%nat by lia.
      reflexivity.
Qed.

Lemma signed_choice_sum_any (n : nat) :
  np_sum (signed_choice n) == inject_Z (Z.of_nat (n * (n mod 2))).
Proof.
  unfold np_sum, signed_choice. rewrite data_signed2, Qsum_map_seq.
  rewrite (sumn_ext (n * n) _
             (fun q => sign_from (n / 2) (((0 * (n * n) + q) / n) mod n))).
  - apply signed_layer_sum_any.
  - intros q Hq. cbn [Nat.mul Nat.add].
    rewrite (Nat.mod_small (q / n) n); [reflexivity|].
    apply Nat.Div0.div_lt_upper_bound. lia.
Qed.

Section NoiseSums.

Context {Gen : Generator}.

(** X3. For every grid size, even or odd, and every seed, the shuffled
    [choice] array sums to [L * (L mod 2)] and the shuffled block
    [noise[1:,:,:]] to [(T - 1) * L * (L mod 2)]: zero when [L] is even, and
    one surplus row of [+1] per layer when [L] is odd (the split at [L//2]
    then is not an exact half). *)
Theorem bounded_noise_sum_any (k : kernel) :
  (exists k', cell_noble_question k = (Ok tt, k') /\
     np_sum (choice k') == inject_Z (Z.of_nat (L k * (L k mod 2)))) /\
  (exists k', make_noise k = (Ok tt, k') /\
     np_sum_tail (noise k')
     == inject_Z (Z.of_nat ((T k - 1) * (L k * (L k mod 2))))).
Proof.
  split.
  - destruct (cell_noble_question_run k) as (g' & x' & P & E).
    eexists. split; [exact E|].
    cbn [choice with_gaussian with_choice]. unfold np_sum. cbn [data].
    rewrite (Qsum_Permutation _ _ P). apply signed_choice_sum_any.
  - destruct (make_noise_run k) as (g' & x' & P & E).
    eexists. split; [exact E|].
    cbn [noise with_noise]. unfold np_sum_tail. cbn [dim1 dim2 data3].
    rewrite shuffled_tail by exact P.
    rewrite (Qsum_Permutation _ _ P). apply signed_noise_tail_sum_any.
Qed.

End NoiseSums.

(** ** The EW loop with noise *)

Lemma ew_noise_step_mass (v : Q) (h eta : ndarray2) :
  wf2 h -> wf2 eta -> same_shape h eta ->
  exists h', ew_noise_step v h eta = Ok h' /\
             wf2 h' /\ same_shape h' h /\
             np_sum h' == np_sum h + np_sum eta.
Proof.
  intros Hh He Hs. eexists. split; [apply ew_noise_step_ok; exact Hs|].
  split; [apply wf2_tabulate|]. split; [split; reflexivity|].
  rewrite !np_sum_zip_plus, np_sum_scalar_mul, np_sum_laplace;
    try assumption; try apply wf2_tabulate; try (split; reflexivity).
  ring.
Qed.

(** The layers past the first of a buffer [first ++ rest] are the layers of
    [rest]. *)
Lemma Qsum_layers_tail (m t : nat) (first rest : list Q) :
  length first = m -> length rest = (t * m)%nat ->
  sumn t (fun a => Qsum (take m (drop (S a * m) (first ++ rest)))) == Qsum rest.
Proof.
  intros Hf Hr. rewrite <- (Qsum_layers m t rest Hr).
  apply sumn_ext. intros a _. cbn [Nat.mul].
  rewrite drop_app_add' by (symmetry; exact Hf). reflexivity.
Qed.

Section NoiseLoop.

Context {Gen : Generator}.

(** The consumed layers of the generated noise sum to what the unshuffled
    block sums to. *)
Lemma make_noise_consumed_total (k : kernel) :
  exists k',
    make_noise k = (Ok tt, k') /\
    film k' = film k /\ v k' = v k /\ L k' = L k /\ T k' = T k /\
    wf3 (noise k') /\
    (dim0 (noise k') = T k /\ dim1 (noise k') = L k /\ dim2 (noise k') = L k) /\
    sumn (T k - 1) (fun a => np_sum_layer (noise k') (S a))
    == inject_Z (Z.of_nat ((T k - 1) * (L k * (L k mod 2)))).
Proof.
  destruct (make_noise_run k) as (g' & x' & P & E).
  eexists. split; [exact E|].
  cbn [noise film v L T with_noise with_shuffler dim0 dim1 dim2].
  set (n := (L k * L k)%nat) in *.
  set (data0 := data3 (signed_noise (T k) (L k))) in *.
  assert (Hlen : length data0 = (T k * n)%nat) by apply wf3_signed_noise.
  assert (Hlen' : length x' = ((T k - 1) * n)%nat).
  { rewrite (Permutation_length P), length_drop, Hlen. nia. }
  repeat split.
  - unfold wf3. cbn [dim0 dim1 dim2 data3]. fold n.
    rewrite length_app, length_take, Hlen', Hlen. nia.
  - unfold np_sum_layer. cbn [dim1 dim2 data3]. fold n.
    destruct (Nat.eq_dec (T k) 0) as [HT|HT].
    + rewrite HT. reflexivity.
    + rewrite Qsum_layers_tail by (try exact Hlen'; rewrite length_take; nia).
      rewrite (Qsum_Permutation _ _ P).
      apply (signed_noise_tail_sum_any (T k) (L k)).
Qed.

(** Running the EW-with-noise loop body over [s, .., s+n-1]: layer [j]
    carries the total of layer [s-1] plus the totals of the noise slices
    [s .. j]; the noise and earlier layers are kept. *)
Lemma ew_noise_loop_run (n s : nat) (k : kernel) :
  wf3 (film k) -> wf3 (noise k) ->
  dim1 (noise k) = dim1 (film k) -> dim2 (noise k) = dim2 (film k) ->
  (1 <= s)%nat -> (s + n <= dim0 (film k))%nat -> (s + n <= dim0 (noise k))%nat ->
  exists k',
    for_each (seq s n) ew_noise_body k = (Ok tt, k') /\
    noise k' = noise k /\
    (forall j, (j < s)%nat -> slice (film k') j = slice (film k) j) /\
    (dim0 (film k') = dim0 (film k)) /\
    (forall j, (s <= j < s + n)%nat ->
       np_sum_layer (film k') j ==
       np_sum_layer (film k) (s - 1)
       + sumn (S j - s) (fun a => np_sum_layer (noise k) (s + a))).
Proof.
  revert s k. induction n as [|n IH]; intros s k Hwf Hwn Hd1 Hd2 Hs Hn Hn'.
  - exists k. cbn [seq for_each]. repeat split. intros j Hj. lia.
  - assert (Hh := slice_ok (film k) (s - 1) ltac:(lia)).
    assert (He := slice_ok (noise k) s ltac:(lia)).
    set (h := Array2 _ _ _) in Hh. set (eta := Array2 _ _ _) in He.
    destruct (wf2_slice _ _ _ Hwf Hh) as (Hwfh & _ & _).
    destruct (wf2_slice _ _ _ Hwn He) as (Hwfe & _ & _).
    assert (Hsh : same_shape h eta) by (split; cbn; congruence).
    destruct (ew_noise_step_mass (v k) h eta Hwfh Hwfe Hsh)
      as (h' & Estep & Hwfh' & Hsh' & Hmass).
    destruct (assign_layer_run s
                (fun k h => let* eta := slice (noise k) s in
                            ew_noise_step (v k) h eta)
                k h h' Hwf ltac:(lia) Hh)
      as (film1 & E1 & Hwf1 & (D0 & D1 & D2) & S1 & O1);
      [rewrite He; exact Estep | exact Hwfh' | exact Hsh' |].
    destruct (IH (S s) (with_film k film1))
      as (k' & E' & Hnoise & Keep & D0' & Mass);
      cbn [film noise with_film] in *; try assumption; try congruence; try lia.
    exists k'. split; [|split; [exact Hnoise|split; [|split; [congruence|]]]].
    + cbn [seq for_each]. unfold seq_stmt, mbind.
      change (ew_noise_body s k)
        with (assign_layer s (fun k h => let* eta := slice (noise k) s in
                                         ew_noise_step (v k) h eta) k).
      rewrite E1. exact E'.
    + intros j Hj. rewrite Keep by lia. apply O1. lia.
    + intros j Hj.
      assert (Hs1 : np_sum_layer film1 s ==
                    np_sum_layer (film k) (s - 1) + np_sum_layer (noise k) s).
      { rewrite <- (np_sum_slice _ _ _ S1), <- (np_sum_slice _ _ _ Hh),
                <- (np_sum_slice _ _ _ He). exact Hmass. }
      replace (S j - s)%nat with (S (j - s)) by lia.
      rewrite sumn_shift, Nat.add_0_r.
      destruct (Nat.eq_dec j s) as [->|Hne].
      * rewrite (np_sum_layer_slice (film k') film1 s s) by (try apply Keep; lia).
        rewrite Nat.sub_diag. cbn [sumn]. rewrite Hs1. ring.
      * rewrite Mass by lia.
        replace (S s - 1)%nat with s by lia. rewrite Hs1.
        replace (S j - S s)%nat with (j - s)%nat by lia.
        rewrite (sumn_ext (j - s)
                   (fun a => np_sum_layer (noise k) (S s + a))
                   (fun a => np_sum_layer (noise k) (s + S a)))
          by (intros a _; replace (S s + a)%nat with (s + S a)%nat by lia;
              reflexivity).
        ring.
Qed.

(** X5. With a first layer and a non-negative [max_starting_height], the
    EW cell with noise initialises the film, builds the noise and runs its
    whole time loop; its plotting loop then reads sixteen layers, so the
    cell completes when [T >= 16] and stops there with [IndexError]
    otherwise.  In both cases, in exact arithmetic, layer [j] of the film
    it leaves carries the mass of the initial layer plus the sums of the
    noise slices consumed so far, so the last layer differs from the first
    by [(T-1) * L * (L mod 2)]: for an even grid size the mass at the end
    equals the mass at the start, although intermediate layers may
    differ. *)
Theorem cell_collectible_bearing_mass (k : kernel) :
  (0 < T k)%nat -> 0 <= max_starting_height k ->
  exists k',
    cell_collectible_bearing k =
      ((if (16 <=? T k)%nat then Ok tt else Raise IndexError), k') /\
    (forall j, (j < T k)%nat ->
       np_sum_layer (film k') j ==
       np_sum_layer (film k') 0
       + sumn j (fun a => np_sum_layer (noise k') (S a))) /\
    np_sum_layer (film k') (T k - 1) ==
    np_sum_layer (film k') 0
    + inject_Z (Z.of_nat ((T k - 1) * (L k * (L k mod 2)))).
Proof.
  intros HT Hmax.
  destruct (init_film_run k HT Hmax) as (film0 & E0 & Hwf & D0 & D1 & D2).
  destruct (make_noise_consumed_total (with_film k film0))
    as (k2 & E2 & Hfilm & Hv & HL & HT2 & Hwn & (N0 & N1 & N2) & Htot).
  cbn [film T L v with_film] in *.
  destruct (ew_noise_loop_run (T k - 1) 1 k2)
    as (k' & E' & Hnoise & Keep & D0' & Mass);
    try rewrite Hfilm; try assumption; try congruence; try lia.
  rewrite Hfilm in *.
  assert (H0 : np_sum_layer (film k') 0 = np_sum_layer film0 0)
    by (apply np_sum_layer_slice; try apply Keep; lia).
  assert (Hall : forall j, (j < T k)%nat ->
            np_sum_layer (film k') j ==
            np_sum_layer (film k') 0
            + sumn j (fun a => np_sum_layer (noise k') (S a))).
  { intros j Hj. rewrite H0, Hnoise.
    destruct j as [|j]; [rewrite H0; cbn [sumn]; ring|].
    rewrite Mass by lia. cbn [Nat.sub Nat.add]. reflexivity. }
  exists k'. split; [|split; [exact Hall|]].
  - unfold cell_collectible_bearing, seq_stmt, mbind, time_loop.
    rewrite E0, E2, HT2, E'. rewrite plot_film_run, D0', D0. reflexivity.
  - rewrite Hall by lia. rewrite Hnoise, Htot. reflexivity.
Qed.

End NoiseLoop.

(** ** The KPZ loop *)

Lemma kpz_step_mass (v l : Q) (h : ndarray2) :
  wf2 h -> (2 <= shape0 h)%nat -> (2 <= shape1 h)%nat ->
  exists h', kpz_step v l h = Ok h' /\
             wf2 h' /\ same_shape h' h /\
             np_sum h' == np_sum h + l / 2 * np_sum (grad_squared_value h).
Proof.
  intros Hwf H0 H1. eexists. split; [apply kpz_step_ok; assumption|].
  split; [apply wf2_tabulate|]. split; [split; reflexivity|].
  rewrite !np_sum_zip_plus, !np_sum_scalar_mul, np_sum_laplace;
    try assumption; try apply wf2_tabulate; try (split; reflexivity).
  ring.
Qed.

Section KpzLoop.

Context {Gen : Generator}.

Lemma kpz_loop_run (n s : nat) (k : kernel) :
  wf3 (film k) -> (2 <= dim1 (film k))%nat -> (2 <= dim2 (film k))%nat ->
  0 <= l k ->
  (1 <= s)%nat -> (s + n <= dim0 (film k))%nat ->
  exists k',
    for_each (seq s n) kpz_body k = (Ok tt, k') /\
    (forall j, (j < s)%nat -> slice (film k') j = slice (film k) j) /\
    dim0 (film k') = dim0 (film k) /\
    (forall j, (s <= j < s + n)%nat ->
       np_sum_layer (film k') (j - 1) <= np_sum_layer (film k') j).
Proof.
  revert s k. induction n as [|n IH]; intros s k Hwf Hr Hc Hl Hs Hn.
  - exists k. cbn [seq for_each]. repeat split. intros j Hj. lia.
  - assert (Hh := slice_ok (film k) (s - 1) ltac:(lia)).
    set (h := Array2 _ _ _) in Hh.
    destruct (wf2_slice _ _ _ Hwf Hh) as (Hwfh & Hh0 & Hh1).
    destruct (kpz_step_mass (v k) (l k) h Hwfh ltac:(lia) ltac:(lia))
      as (h' & Estep & Hwfh' & Hsh' & Hmass).
    destruct (assign_layer_run s (fun k h => kpz_step (v k) (l k) h)
                k h h' Hwf ltac:(lia) Hh Estep Hwfh' Hsh')
      as (film1 & E1 & Hwf1 & (D0 & D1 & D2) & S1 & O1).
    destruct (IH (S s) (with_film k film1))
      as (k' & E' & Keep & D0' & Mass);
      cbn [film l with_film] in *; try assumption; try lia.
    exists k'. split; [|split; [|split; [congruence|]]].
    + cbn [seq for_each]. unfold seq_stmt, mbind.
      change (kpz_body s k)
        with (assign_layer s (fun k h => kpz_step (v k) (l k) h) k).
      rewrite E1. exact E'.
    + intros j Hj. rewrite Keep by lia. apply O1. lia.
    + intros j Hj. destruct (Nat.eq_dec j s) as [->|Hne]; [|apply Mass; lia].
      rewrite (np_sum_layer_slice (film k') film1 s s) by (try apply Keep; lia).
      rewrite (np_sum_layer_slice (film k') (film k) (s - 1) (s - 1))
        by (try lia; rewrite Keep by lia; apply O1; lia).
      rewrite <- (np_sum_slice _ _ _ S1), <- (np_sum_slice _ _ _ Hh), Hmass.
      assert (Hg := np_sum_grad_squared_nonneg h).
      assert (Hl2 : 0 <= l k / 2) by (apply Qle_shift_div_l; lra).
      assert (HlG : 0 <= l k / 2 * np_sum (grad_squared_value h))
        by (apply Qmult_le_0_compat; assumption).
      lra.
Qed.

(** X6. On a grid with at least two rows and columns, with a first layer,
    a non-negative [max_starting_height] and a non-negative non-linear
    coefficient, the KPZ cell without noise initialises the film and runs
    its whole time loop; its plotting loop then reads sixteen layers, so
    the cell completes when [T >= 16] and stops there with [IndexError]
    otherwise.  In both cases, in exact arithmetic, the mass of the film it
    leaves never decreases from one layer to the next. *)
Theorem cell_clinical_prior_mass (k : kernel) :
  (0 < T k)%nat -> (2 <= L k)%nat -> 0 <= l k -> 0 <= max_starting_height k ->
  exists k',
    cell_clinical_prior k =
      ((if (16 <=? T k)%nat then Ok tt else Raise IndexError), k') /\
    forall j, (S j < T k)%nat ->
      np_sum_layer (film k') j <= np_sum_layer (film k') (S j).
Proof.
  intros HT HL Hl Hmax.
  destruct (init_film_run k HT Hmax) as (film0 & E0 & Hwf & D0 & D1 & D2).
  destruct (kpz_loop_run (T k - 1) 1 (with_film k film0))
    as (k' & E' & Keep & D0' & Mass);
    cbn [film l with_film] in *; try assumption; try lia.
  exists k'. split.
  - unfold cell_clinical_prior, seq_stmt, mbind, time_loop. rewrite E0.
    cbn [T with_film]. rewrite E'. rewrite plot_film_run, D0', D0. reflexivity.
  - intros j Hj. assert (H := Mass (S j) ltac:(lia)).
    replace (S j - 1)%nat with j in H by lia. exact H.
Qed.

(** X7. On a one-cell grid with at least two time steps and a non-negative
    [max_starting_height] (so that the initialisation succeeds) both KPZ
    cells stop at their first iteration with the [ValueError] of
    [np.gradient]; the film is left as initialised: the failing iteration
    has assigned nothing. *)
Theorem kpz_cells_raise_on_single_cell (k : kernel) :
  L k = 1%nat -> (2 <= T k)%nat -> 0 <= max_starting_height k ->
  exists film0,
    init_film k = (Ok tt, with_film k film0) /\
    cell_clinical_prior k = (Raise ValueError, with_film k film0) /\
    exists k', cell_removed_nothing k = (Raise ValueError, k') /\ film k' = film0.
Proof.
  intros HL HT Hmax.
  destruct (init_film_run k ltac:(lia) Hmax) as (film0 & E0 & Hwf & D0 & D1 & D2).
  exists film0. split; [exact E0|].
  assert (Hh := slice_ok film0 0 ltac:(lia)).
  set (h := Array2 _ _ _) in Hh.
  assert (Hsmall : (shape0 h < 2)%nat \/ (shape1 h < 2)%nat)
    by (left; cbn; lia).
  assert (Hseq : seq 1 (T k - 1) = 1%nat :: seq 2 (T k - 2)).
  { destruct (T k) as [|[|t]]; try lia. cbn [Nat.sub seq]. rewrite Nat.sub_0_r.
    reflexivity. }
  split.
  - unfold cell_clinical_prior, seq_stmt, mbind, time_loop. rewrite E0.
    cbn [T with_film]. rewrite Hseq. cbn [for_each].
    unfold seq_stmt, mbind, kpz_body, assign_layer, mbind, eval.
    cbn [film v l with_film Nat.sub]. rewrite Hh. cbn [bind].
    rewrite kpz_step_too_small by exact Hsmall. reflexivity.
  - destruct (make_noise_consumed_total (with_film k film0))
      as (k2 & E2 & Hfilm & Hv & HL2 & HT2 & Hwn & (N0 & N1 & N2) & _).
    cbn [film T L v with_film] in *.
    exists k2. split; [|exact Hfilm].
    assert (He := slice_ok (noise k2) 1 ltac:(lia)).
    unfold cell_removed_nothing, seq_stmt, mbind, time_loop.
    rewrite E0, E2, HT2, Hseq. cbn [for_each].
    unfold seq_stmt, mbind, kpz_noise_body, assign_layer, mbind, eval.
    cbn [Nat.sub]. rewrite Hfilm, Hh. cbn [bind]. rewrite He. cbn [bind].
    rewrite kpz_noise_step_too_small by exact Hsmall. reflexivity.
Qed.

(** X8. With no time step at all ([T = 0]) every simulation cell stops in
    the statement that assigns the initial layer, [film] being bound to the
    empty array created just before: the right-hand side is evaluated
    first, so a negative [max_starting_height] gives the [ValueError] of
    [uniform]; otherwise the store into [film[0,:,:]] gives [IndexError]. *)
Theorem cells_raise_without_layers (k : kernel) :
  T k = 0%nat ->
  forall cell,
    In cell [cell_diagnostic_tuesday; cell_collectible_bearing;
             cell_clinical_prior; cell_removed_nothing] ->
    cell k = (Raise (if Qlt_le_dec (max_starting_height k) 0
                     then ValueError else IndexError),
              with_film k (full3 0 (L k) (L k) 0)).
Proof.
  intros HT cell Hin.
  assert (E0 : init_film k =
               (Raise (if Qlt_le_dec (max_starting_height k) 0
                       then ValueError else IndexError),
                with_film k (full3 0 (L k) (L k) 0))).
  { destruct (Qlt_le_dec (max_starting_height k) 0) as [Hneg|Hpos].
    - rewrite init_film_negative_range by exact Hneg. rewrite HT. reflexivity.
    - unfold init_film, seq_stmt, mbind, assign, eval.
      cbn [film with_film T L seed_init max_starting_height].
      rewrite uniform_ok by exact Hpos. cbn [bind fst].
      unfold set_slice. cbn [dim0 full3].
      rewrite HT. reflexivity. }
  cbn [In] in Hin.
  destruct Hin as [<-|[<-|[<-|[<-|[]]]]];
    unfold cell_diagnostic_tuesday, cell_collectible_bearing,
           cell_clinical_prior, cell_removed_nothing, seq_stmt, mbind;
    rewrite E0; reflexivity.
Qed.

End KpzLoop.

(** ** Raising the whole surface; bounds of the relaxation *)

Lemma get_scalar_add (a : ndarray2) (c : Q) (i j : nat) :
  (i < shape0 a)%nat -> (j < shape1 a)%nat ->
  get (scalar_add a c) i j = get a i j + c.
Proof. intros. unfold scalar_add. apply get_tabulate; assumption. Qed.

Lemma laplace_scalar_add (a : ndarray2) (c : Q) (i j : nat) :
  (i < shape0 a)%nat -> (j < shape1 a)%nat ->
  get (laplace (scalar_add a c)) i j == get (laplace a) i j.
Proof.
  intros Hi Hj. rewrite !get_laplace by assumption.
  unfold reflect_stencil. cbn [shape0 shape1 scalar_add tabulate].
  fold (scalar_add a c).
  destruct (Nat.eqb_spec i 0); destruct (Nat.eqb_spec (i + 1) (shape0 a));
    destruct (Nat.eqb_spec j 0); destruct (Nat.eqb_spec (j + 1) (shape1 a));
    rewrite !get_scalar_add by lia; ring.
Qed.

Lemma gradient_line_shift (n : nat) (line line' : nat -> Q) (c : Q) (i : nat) :
  (2 <= n)%nat -> (i < n)%nat ->
  (forall q, (q < n)%nat -> line' q == line q + c) ->
  gradient_line n line' i == gradient_line n line i.
Proof.
  intros Hn Hi H. unfold gradient_line.
  destruct (Nat.eqb_spec i 0); [rewrite !H by lia; ring|].
  destruct (Nat.eqb_spec i (n - 1)); rewrite !H by lia; field.
Qed.

Lemma squared_gradient_scalar_add (a : ndarray2) (c : Q) (i j : nat) :
  (2 <= shape0 a)%nat -> (2 <= shape1 a)%nat ->
  (i < shape0 a)%nat -> (j < shape1 a)%nat ->
  squared_gradient_at (scalar_add a c) i j == squared_gradient_at a i j.
Proof.
  intros H0 H1 Hi Hj. unfold squared_gradient_at.
  cbn [shape0 shape1 scalar_add tabulate]. fold (scalar_add a c).
  rewrite (gradient_line_shift (shape0 a) (fun i' => get a i' j)
             (fun i' => get (scalar_add a c) i' j) c i H0 Hi)
    by (intros q Hq; cbn beta; rewrite get_scalar_add by assumption; reflexivity).
  rewrite (gradient_line_shift (shape1 a) (fun j' => get a i j')
             (fun j' => get (scalar_add a c) i j') c j H1 Hj)
    by (intros q Hq; cbn beta; rewrite get_scalar_add by assumption; reflexivity).
  reflexivity.
Qed.

(** X9. In exact arithmetic the steps do not depend on the zero level of
    the heights: raising the whole field by a constant [c] raises the
    result of one EW step by [c], and likewise the result of one KPZ step on
    a field with at least two rows and two columns. *)
Theorem step_offset_invariant (v l c : Q) (h : ndarray2) :
  (exists h1 h2,
     ew_step v h = Ok h1 /\ ew_step v (scalar_add h c) = Ok h2 /\
     array_eq h2 (scalar_add h1 c)) /\
  ((2 <= shape0 h)%nat -> (2 <= shape1 h)%nat ->
   exists h1 h2,
     kpz_step v l h = Ok h1 /\ kpz_step v l (scalar_add h c) = Ok h2 /\
     array_eq h2 (scalar_add h1 c)).
Proof.
  split.
  - eexists. eexists. split; [apply ew_step_ok|]. split; [apply ew_step_ok|].
    split; [split; reflexivity|].
    cbn [shape0 shape1 zip_with2 tabulate scalar_add]. fold (scalar_add h c).
    intros i j Hi Hj.
    rewrite !get_scalar_add
      by (cbn [shape0 shape1 zip_with2 tabulate]; assumption).
    rewrite !get_zip, !get_scalar_mul, get_scalar_add by assumption.
    rewrite laplace_scalar_add by assumption. ring.
  - intros H0 H1.
    eexists. eexists. split; [apply kpz_step_ok; assumption|].
    split; [apply kpz_step_ok; assumption|].
    split; [split; reflexivity|].
    cbn [shape0 shape1 zip_with2 tabulate scalar_add]. fold (scalar_add h c).
    intros i j Hi Hj.
    rewrite !get_scalar_add
      by (cbn [shape0 shape1 zip_with2 tabulate]; assumption).
    rewrite !get_zip, !get_scalar_mul, !get_grad_squared_value, get_scalar_add
      by assumption.
    rewrite laplace_scalar_add, squared_gradient_scalar_add by assumption.
    ring.
Qed.

Lemma relax_between (v lo hi x n1 n2 n3 n4 : Q) :
  0 <= v -> v <= 1 # 4 ->
  lo <= x <= hi -> lo <= n1 <= hi -> lo <= n2 <= hi ->
  lo <= n3 <= hi -> lo <= n4 <= hi ->
  lo <= x + v * (n1 + n2 + n3 + n4 - 4 * x) <= hi.
Proof.
  intros Hv Hv4 Hx H1 H2 H3 H4.
  assert (Hw : 0 <= 1 - 4 * v) by lra.
  assert (A0 := Qmult_le_0_compat _ _ Hw (proj1 (Qle_minus_iff lo x) (proj1 Hx))).
  assert (A1 := Qmult_le_0_compat _ _ Hv (proj1 (Qle_minus_iff lo n1) (proj1 H1))).
  assert (A2 := Qmult_le_0_compat _ _ Hv (proj1 (Qle_minus_iff lo n2) (proj1 H2))).
  assert (A3 := Qmult_le_0_compat _ _ Hv (proj1 (Qle_minus_iff lo n3) (proj1 H3))).
  assert (A4 := Qmult_le_0_compat _ _ Hv (proj1 (Qle_minus_iff lo n4) (proj1 H4))).
  assert (B0 := Qmult_le_0_compat _ _ Hw (proj1 (Qle_minus_iff x hi) (proj2 Hx))).
  assert (B1 := Qmult_le_0_compat _ _ Hv (proj1 (Qle_minus_iff n1 hi) (proj2 H1))).
  assert (B2 := Qmult_le_0_compat _ _ Hv (proj1 (Qle_minus_iff n2 hi) (proj2 H2))).
  assert (B3 := Qmult_le_0_compat _ _ Hv (proj1 (Qle_minus_iff n3 hi) (proj2 H3))).
  assert (B4 := Qmult_le_0_compat _ _ Hv (proj1 (Qle_minus_iff n4 hi) (proj2 H4))).
  split; lra.
Qed.

(** X10. For a surface tension between 0 and 1/4 (the notebook uses 0.1)
    one EW step creates no new extremes: if every height lies in
    [[lo, hi]], so does every height after the step. *)
Theorem ew_step_keeps_bounds (v lo hi : Q) (h : ndarray2) :
  0 <= v -> v <= 1 # 4 ->
  (forall i j, (i < shape0 h)%nat -> (j < shape1 h)%nat -> lo <= get h i j <= hi) ->
  exists h',
    ew_step v h = Ok h' /\
    forall i j, (i < shape0 h)%nat -> (j < shape1 h)%nat -> lo <= get h' i j <= hi.
Proof.
  intros Hv Hv4 Hb. eexists. split; [apply ew_step_ok|].
  intros i j Hi Hj.
  rewrite get_zip, get_scalar_mul by assumption.
  assert (E : get h i j + v * get (laplace h) i j ==
              get h i j + v * (((if (i =? 0)%nat then get h i j else get h (i - 1)%nat j)
                + (if (i + 1 =? shape0 h)%nat then get h i j else get h (i + 1)%nat j)
                + (if (j =? 0)%nat then get h i j else get h i (j - 1)%nat)
                + (if (j + 1 =? shape1 h)%nat then get h i j else get h i (j + 1)%nat))
                - 4 * get h i j)).
  { rewrite get_laplace by assumption. unfold reflect_stencil. reflexivity. }
  rewrite E.
  apply relax_between; try assumption; try (apply Hb; assumption).
  - destruct (Nat.eqb_spec i 0); apply Hb; lia.
  - destruct (Nat.eqb_spec (i + 1) (shape0 h)); apply Hb; lia.
  - destruct (Nat.eqb_spec j 0); apply Hb; lia.
  - destruct (Nat.eqb_spec (j + 1) (shape1 h)); apply Hb; lia.
Qed.

(** X11. A flat field is a fixed point of the KPZ step for every surface
    tension and every non-linear coefficient: both the Laplacian and the
    gradient vanish on it. *)
Theorem kpz_step_flat_fixed (v l x : Q) (r c : nat) :
  (2 <= r)%nat -> (2 <= c)%nat ->
  exists h', kpz_step v l (full r c x) = Ok h' /\ array_eq h' (full r c x).
Proof.
  intros Hr Hc.
  eexists. split; [apply kpz_step_ok; assumption|].
  split; [split; reflexivity|].
  cbn [shape0 shape1 zip_with2 tabulate full]. fold (full r c x).
  intros i j Hi Hj.
  rewrite !get_zip, !get_scalar_mul, get_grad_squared_value by assumption.
  rewrite laplace_full by assumption.
  unfold squared_gradient_at. cbn [shape0 shape1 full]. fold (full r c x).
  rewrite (gradient_line_const r (fun i' => get (full r c x) i' j)),
          (gradient_line_const c (fun j' => get (full r c x) i j'));
    try assumption;
    try (intros q Hq; cbn beta; rewrite !get_full by lia; reflexivity).
  ring.
Qed.

(** ** The initial layer *)

Section InitialLayer.

Context {Gen : Generator}.

Lemma draws_Forall (P : Q -> Prop) (next : rng -> Q * rng) (n : nat) (g : rng) :
  (forall g0, P (fst (next g0))) -> Forall P (fst (draws n next g)).
Proof.
  intros HP. revert g. induction n as [|n IH]; intros g; cbn [draws].
  - constructor.
  - assert (Hx := HP g). destruct (next g) as [x g1]. specialize (IH g1).
    destruct (draws n next g1) as [xs g2]. cbn [fst] in *.
    constructor; assumption.
Qed.

(** X12. When the generator's uniform draw lies in [[0, 1)], as documented
    for [Generator.uniform], the initialised film has every height of its
    first layer in [[0, max_starting_height)] and all later layers at
    zero. *)
Theorem init_film_heights (k : kernel) :
  (0 < T k)%nat -> 0 < max_starting_height k ->
  (forall g, 0 <= fst (next_double g) /\ fst (next_double g) < 1) ->
  exists film0 h0,
    init_film k = (Ok tt, with_film k film0) /\
    slice film0 0 = Ok h0 /\
    Forall (fun x => 0 <= x /\ x < max_starting_height k) (data h0) /\
    forall j, (0 < j)%nat ->
      slice film0 j = slice (full3 (T k) (L k) (L k) 0) j.
Proof.
  intros HT Hmax Hgen.
  assert (Eu := uniform_ok (default_rng (seed_init k)) 0 (max_starting_height k)
                  (L k) (L k) ltac:(lra)).
  set (u := Array2 (L k) (L k) _) in Eu.
  assert (Hu : wf2 u /\ shape0 u = L k /\ shape1 u = L k).
  { unfold wf2, u. cbn [shape0 shape1 data].
    rewrite length_map, length_draws. auto. }
  destruct Hu as (Hu & Hu0 & Hu1).
  destruct (set_slice_ok (full3 (T k) (L k) (L k) 0) 0 u (wf3_full3 _ _ _ _) Hu)
    as (film0 & E & Hwf & _ & S0 & Other); [exact HT | exact Hu0 | exact Hu1 |].
  exists film0, u. split; [|split; [exact S0|split]].
  - unfold init_film, seq_stmt, mbind, assign, eval.
    cbn [film with_film T L seed_init max_starting_height].
    rewrite Eu. cbn [bind fst]. rewrite E. reflexivity.
  - unfold u.
    assert (Hd := draws_Forall (fun x => 0 <= x /\ x < 1) next_double
                    (L k * L k) (default_rng (seed_init k)) Hgen).
    cbn [data].
    apply List.Forall_map. revert Hd. apply List.Forall_impl.
    intros x [Hx0 Hx1].
    assert (H0 : 0 <= max_starting_height k * x)
      by (apply Qmult_le_0_compat; lra).
    assert (H1 : 0 < max_starting_height k * (1 - x))
      by (apply Qmult_lt_0_compat; lra).
    split; lra.
  - intros j Hj. apply Other. lia.
Qed.

End InitialLayer.

Lemma lcg_double_range (g : N) :
  0 <= fst (lcg_double g) /\ fst (lcg_double g) < 1.
Proof.
  unfold lcg_double. cbn [fst].
  assert (H : (lcg_next g / 2 ^ 32 < 2 ^ 32)%N).
  { apply N.Div0.div_lt_upper_bound.
    unfold lcg_next. change (2 ^ 32 * 2 ^ 32)%N with (2 ^ 64)%N.
    apply N.mod_lt. discriminate. }
  set (z := (lcg_next g / 2 ^ 32)%N) in *.
  change (2 ^ 32)%N with 4294967296%N in H.
  unfold Qle, Qlt. cbn [Qnum Qden]. lia.
Qed.

Lemma init_film_heights_witness :
  exists film0 h0,
    init_film (demo_kernel 2 3 5) = (Ok tt, with_film (demo_kernel 2 3 5) film0) /\
    slice film0 0 = Ok h0 /\
    Forall (fun x => 0 <= x /\ x < max_starting_height (demo_kernel 2 3 5)) (data h0) /\
    forall j, (0 < j)%nat ->
      slice film0 j = slice (full3 (T (demo_kernel 2 3 5)) (L (demo_kernel 2 3 5))
                               (L (demo_kernel 2 3 5)) 0) j.
Proof.
  apply (init_film_heights (demo_kernel 2 3 5)).
  - simpl. lia.
  - reflexivity.
  - exact lcg_double_range.
Defined.

(** ** Worked instances *)

Lemma cell_diagnostic_tuesday_mass_witness :
  exists k',
    cell_diagnostic_tuesday (demo_kernel 2 16 5) = (Ok tt, k') /\
    forall i, (i < T (demo_kernel 2 16 5))%nat ->
      np_sum_layer (film k') i == np_sum_layer (film k') 0.
Proof.
  apply (cell_diagnostic_tuesday_mass (demo_kernel 2 16 5)).
  - simpl. lia.
  - simpl. unfold Qle. simpl. lia.
Defined.

Lemma cell_collectible_bearing_mass_witness :
  exists k',
    cell_collectible_bearing (demo_kernel 2 16 5) = (Ok tt, k') /\
    (forall j, (j < T (demo_kernel 2 16 5))%nat ->
       np_sum_layer (film k') j ==
       np_sum_layer (film k') 0
       + sumn j (fun a => np_sum_layer (noise k') (S a))) /\
    np_sum_layer (film k') (T (demo_kernel 2 16 5) - 1) ==
    np_sum_layer (film k') 0
    + inject_Z (Z.of_nat ((T (demo_kernel 2 16 5) - 1)
                          * (L (demo_kernel 2 16 5) * (L (demo_kernel 2 16 5) mod 2)))).
Proof.
  apply (cell_collectible_bearing_mass (demo_kernel 2 16 5)).
  - simpl. lia.
  - simpl. unfold Qle. simpl. lia.
Defined.

Lemma cell_clinical_prior_mass_witness :
  exists k',
    cell_clinical_prior (demo_kernel 2 16 5) = (Ok tt, k') /\
    forall j, (S j < T (demo_kernel 2 16 5))%nat ->
      np_sum_layer (film k') j <= np_sum_layer (film k') (S j).
Proof.
  apply (cell_clinical_prior_mass (demo_kernel 2 16 5)).
  - simpl. lia.
  - simpl. lia.
  - simpl. unfold Qle. simpl. lia.
  - simpl. unfold Qle. simpl. lia.
Defined.

Lemma kpz_cells_raise_on_single_cell_witness :
  exists film0,
    init_film (demo_kernel 1 2 5) = (Ok tt, with_film (demo_kernel 1 2 5) film0) /\
    cell_clinical_prior (demo_kernel 1 2 5)
      = (Raise ValueError, with_film (demo_kernel 1 2 5) film0) /\
    exists k', cell_removed_nothing (demo_kernel 1 2 5) = (Raise ValueError, k')
               /\ film k' = film0.
Proof.
  apply (kpz_cells_raise_on_single_cell (demo_kernel 1 2 5)).
  - reflexivity.
  - simpl. lia.
  - simpl. unfold Qle. simpl. lia.
Defined.

Lemma cells_raise_without_layers_witness :
  cell_removed_nothing (demo_kernel 2 0 5)
  = (Raise IndexError,
     with_film (demo_kernel 2 0 5)
       (full3 0 (L (demo_kernel 2 0 5)) (L (demo_kernel 2 0 5)) 0)).
Proof.
  apply (cells_raise_without_layers (demo_kernel 2 0 5)).
  - reflexivity.
  - simpl. auto.
Defined.

Lemma ew_step_keeps_bounds_witness :
  exists h',
    ew_step (1 # 10) ramp2 = Ok h' /\
    forall i j, (i < shape0 ramp2)%nat -> (j < shape1 ramp2)%nat ->
      1 <= get h' i j <= 5.
Proof.
  apply (ew_step_keeps_bounds (1 # 10) 1 5 ramp2).
  - unfold Qle. simpl. lia.
  - unfold Qle. simpl. lia.
  - intros i j Hi Hj. simpl in Hi, Hj.
    destruct i as [|[|i]]; [| |lia]; (destruct j as [|[|j]]; [| |lia]);
      split; unfold Qle; simpl; lia.
Defined.

Lemma kpz_step_flat_fixed_witness :
  exists h', kpz_step (1 # 10) (1 # 20) (full 4 4 5) = Ok h'
             /\ array_eq h' (full 4 4 5).
Proof.
  apply (kpz_step_flat_fixed (1 # 10) (1 # 20) 5 4 4); lia.
Defined.

(** ** The dice notebook *)

Lemma reroll_loop_run (n s half : nat) (all_rolls rerolled : list Z) :
  (s + n <= length rerolled)%nat -> (s + n + half <= length all_rolls)%nat ->
  exists r,
    reroll_loop (seq s n) all_rolls rerolled half = Ok r /\
    length r = length rerolled /\
    forall i,
      r !! i =
      if decide (s <= i < s + n /\ rerolled !! i = Some 1%Z)%nat
      then all_rolls !! (i + half)%nat
      else rerolled !! i.
Proof.
  revert s rerolled. induction n as [|n IH]; intros s rerolled Hr Ha.
  - exists rerolled. cbn [seq reroll_loop]. repeat split.
    intros i. rewrite decide_False by lia. reflexivity.
  - cbn [seq reroll_loop].
    destruct (lookup_lt_is_Some_2 rerolled s ltac:(lia)) as [x Ex].
    rewrite Ex. destruct (Z.eqb_spec x 1) as [->|Hx].
    + destruct (lookup_lt_is_Some_2 all_rolls (s + half) ltac:(lia)) as [y Ey].
      rewrite Ey.
      destruct (IH (S s) (<[s := y]> rerolled)) as (r & E & Hlen & Hget);
        [rewrite length_insert; lia | lia |].
      exists r. split; [exact E|]. split; [rewrite Hlen; apply length_insert|].
      intros i. rewrite Hget.
      destruct (Nat.eq_dec i s) as [->|Hne].
      * rewrite decide_False by lia.
        rewrite decide_True by (split; [lia|exact Ex]).
        rewrite list_lookup_insert_eq by lia. symmetry. exact Ey.
      * rewrite list_lookup_insert_ne by lia.
        destruct (decide (S s <= i < S s + n /\ rerolled !! i = Some 1%Z)%nat);
          [rewrite decide_True by (split; [lia|tauto]) |
           rewrite decide_False by (intros [? ?]; apply n0; split; [lia|assumption])];
          reflexivity.
    + destruct (IH (S s) rerolled) as (r & E & Hlen & Hget); [lia | lia |].
      exists r. split; [exact E|]. split; [exact Hlen|].
      intros i. rewrite Hget.
      destruct (Nat.eq_dec i s) as [->|Hne].
      * rewrite !decide_False; [reflexivity | | lia].
        intros [_ H1]. rewrite Ex in H1. congruence.
      * destruct (decide (S s <= i < S s + n /\ rerolled !! i = Some 1%Z)%nat);
          [rewrite decide_True by (split; [lia|tauto]) |
           rewrite decide_False by (intros [? ?]; apply n0; split; [lia|assumption])];
          reflexivity.
Qed.

Lemma zip_with_map_same {A} (h : Z -> Z -> Z) (f g : A -> Z) (xs : list A) :
  zip_with h (map f xs) (map g xs) = map (fun x => h (f x) (g x)) xs.
Proof.
  induction xs as [|x xs IH]; cbn [map zip_with]; [reflexivity|].
  rewrite IH. reflexivity.
Qed.

Lemma Forall_is_roll_nth (d : list Z) (j : nat) :
  Forall is_roll d -> (j < length d)%nat -> is_roll (nth j d 0%Z).
Proof. intros H Hj. apply (proj1 (List.Forall_nth is_roll d) H). exact Hj. Qed.

(** The rerolled dice: the loop never reads out of bounds, keeps every die a
    roll, and a die still shows 1 only when its reroll was 1 as well. *)
Lemma reroll_dice (half : nat) (all_rolls : list Z) :
  length all_rolls = (2 * half)%nat -> Forall is_roll all_rolls ->
  exists rerolled,
    reroll_loop (seq 0 half) all_rolls (py_slice all_rolls 0 half) half
      = Ok rerolled /\
    length rerolled = half /\
    Forall is_roll rerolled /\
    forall i, rerolled !! i = Some 1%Z ->
      all_rolls !! i = Some 1%Z /\ all_rolls !! (i + half)%nat = Some 1%Z.
Proof.
  intros Hlen Hroll. unfold py_slice. rewrite Nat.sub_0_r, drop_0.
  assert (Hd : length (take half all_rolls) = half)
    by (rewrite length_take; lia).
  destruct (reroll_loop_run half 0 half all_rolls (take half all_rolls))
    as (r & E & Hr & Hget); [lia | lia |].
  exists r. split; [exact E|]. split; [congruence|].
  assert (Hcase : forall i x, r !! i = Some x ->
            (all_rolls !! i = Some 1%Z /\ all_rolls !! (i + half)%nat = Some x)
            \/ (all_rolls !! i = Some x /\ x <> 1%Z)).
  { intros i x Hx. rewrite Hget in Hx.
    destruct (decide _) as [[Hi H1]|Hn].
    - left. split; [|exact Hx].
      rewrite lookup_take_lt in H1 by lia. exact H1.
    - right. assert (Hi : (i < half)%nat).
      { apply lookup_lt_Some in Hx. lia. }
      rewrite lookup_take_lt in Hx by lia. split; [exact Hx|].
      intros ->. apply Hn. split; [lia|].
      rewrite lookup_take_lt by lia. exact Hx. }
  split.
  - apply Forall_lookup. intros i x Hx.
    destruct (Hcase i x Hx) as [[_ H]|[H _]];
      exact (Forall_lookup_1 _ _ _ _ Hroll H).
  - intros i Hi. destruct (Hcase i 1%Z Hi) as [H|[_ H]]; [exact H|congruence].
Qed.

(** On a number of rolls that is a multiple of eight, the shared processing
    yields one sum per group of eight rolls, each the total of four dice
    less the smallest, hence between 3 and 18. *)
Lemma dice_sums_run (q : nat) (all_rolls : list Z) :
  length all_rolls = (8 * q)%nat -> Forall is_roll all_rolls ->
  exists s,
    dice_sums (8 * q) all_rolls = Ok s /\
    length s = q /\
    Forall (fun x => (3 <= x <= 18)%Z) s.
Proof.
  intros Hlen Hroll. unfold dice_sums.
  assert (E2 : (8 * q / 2 = 4 * q)%nat)
    by (symmetry; apply (Nat.div_unique _ _ _ 0); lia).
  assert (E8 : (8 * q / 8 = q)%nat)
    by (symmetry; apply (Nat.div_unique _ _ _ 0); lia).
  assert (E28 : (2 * (8 * q) / 8 = 2 * q)%nat)
    by (symmetry; apply (Nat.div_unique _ _ _ 0); lia).
  assert (E38 : (3 * (8 * q) / 8 = 3 * q)%nat)
    by (symmetry; apply (Nat.div_unique _ _ _ 0); lia).
  assert (E48 : (4 * (8 * q) / 8 = 4 * q)%nat)
    by (symmetry; apply (Nat.div_unique _ _ _ 0); lia).
  rewrite E2, E8, E28, E38, E48.
  destruct (reroll_dice (4 * q) all_rolls ltac:(lia) Hroll)
    as (r & E & Hr & Hrr & _).
  rewrite E. cbn [bind]. unfold py_slice.
  set (d1 := take (q - 0) (drop 0 r)).
  set (d2 := take (2 * q - q) (drop q r)).
  set (d3 := take (3 * q - 2 * q) (drop (2 * q) r)).
  set (d4 := take (4 * q - 3 * q) (drop (3 * q) r)).
  assert (L1 : length d1 = q) by (unfold d1; rewrite length_take, length_drop; lia).
  assert (L2 : length d2 = q) by (unfold d2; rewrite length_take, length_drop; lia).
  assert (L3 : length d3 = q) by (unfold d3; rewrite length_take, length_drop; lia).
  assert (L4 : length d4 = q) by (unfold d4; rewrite length_take, length_drop; lia).
  assert (R1 : Forall is_roll d1) by (apply Forall_take, Forall_drop, Hrr).
  assert (R2 : Forall is_roll d2) by (apply Forall_take, Forall_drop, Hrr).
  assert (R3 : Forall is_roll d3) by (apply Forall_take, Forall_drop, Hrr).
  assert (R4 : Forall is_roll d4) by (apply Forall_take, Forall_drop, Hrr).
  unfold vstack. cbn [forallb]. rewrite L1, L2, L3, L4, Nat.eqb_refl.
  cbn [andb bind]. eexists. split; [reflexivity|].
  unfold sum_axis0, min_axis0. cbn [ncols]. rewrite L1, zip_with_map_same.
  split; [rewrite length_map, length_seq; reflexivity|].
  apply List.Forall_map, List.Forall_forall. intros j Hj.
  apply in_seq in Hj. cbn [column map foldr].
  assert (H1 := Forall_is_roll_nth d1 j R1 ltac:(lia)).
  assert (H2 := Forall_is_roll_nth d2 j R2 ltac:(lia)).
  assert (H3 := Forall_is_roll_nth d3 j R3 ltac:(lia)).
  assert (H4 := Forall_is_roll_nth d4 j R4 ltac:(lia)).
  unfold is_roll in *. lia.
Qed.


(** X15. A pass of the second dice cell draws only [samples*4] rolls: for an
    even [samples] it yields [samples/2] sums, half the labelled sample
    count; for an odd [samples] the four slices have unequal lengths and
    [np.vstack] raises [ValueError]. *)
Theorem dice_convergence_pass_count (m : nat) (all_rolls : list Z) :
  Forall is_roll all_rolls ->
  (length all_rolls = (2 * m * 4)%nat ->
   exists s, dice_convergence_pass (2 * m) all_rolls = Ok s /\
             length s = m /\ Forall (fun x => (3 <= x <= 18)%Z) s) /\
  (length all_rolls = ((2 * m + 1) * 4)%nat ->
   dice_convergence_pass (2 * m + 1) all_rolls = Raise ValueError).
Proof.
  intros Hroll. split; intros Hlen; unfold dice_convergence_pass.
  - replace (2 * m * 4)%nat with (8 * m)%nat in * by lia.
    apply dice_sums_run; assumption.
  - unfold dice_sums.
    set (tr := ((2 * m + 1) * 4)%nat) in *.
    assert (E2 : (tr / 2 = 4 * m + 2)%nat)
      by (symmetry; apply (Nat.div_unique _ _ _ 0); lia).
    assert (E8 : (tr / 8 = m)%nat)
      by (symmetry; apply (Nat.div_unique _ _ _ 4); lia).
    assert (E28 : (2 * tr / 8 = 2 * m + 1)%nat)
      by (symmetry; apply (Nat.div_unique _ _ _ 0); lia).
    assert (E38 : (3 * tr / 8 = 3 * m + 1)%nat)
      by (symmetry; apply (Nat.div_unique _ _ _ 4); lia).
    assert (E48 : (4 * tr / 8 = 4 * m + 2)%nat)
      by (symmetry; apply (Nat.div_unique _ _ _ 0); lia).
    rewrite E2, E8, E28, E38, E48.
    destruct (reroll_dice (4 * m + 2) all_rolls ltac:(lia) Hroll)
      as (r & E & Hr & _ & _).
    rewrite E. cbn [bind]. unfold py_slice, vstack. cbn [forallb].
    rewrite !length_take, !length_drop, Hr.
    destruct (Nat.eqb_spec ((2 * m + 1 - m) `min` (4 * m + 2 - m))
                ((m - 0) `min` (4 * m + 2 - 0))) as [Heq|Hne]; [lia|].
    reflexivity.
Qed.

(** X16. Rerolling the ones: the loop reads only inside [all_rolls], leaves
    [half] dice that are all rolls of a die, and a die shows 1 afterwards
    only if both its first roll and its reroll were 1. *)
Theorem reroll_ones (half : nat) (all_rolls : list Z) :
  length all_rolls = (2 * half)%nat -> Forall is_roll all_rolls ->
  exists rerolled,
    reroll_loop (seq 0 half) all_rolls (py_slice all_rolls 0 half) half
      = Ok rerolled /\
    length rerolled = half /\
    Forall is_roll rerolled /\
    forall i, rerolled !! i = Some 1%Z ->
      all_rolls !! i = Some 1%Z /\ all_rolls !! (i + half)%nat = Some 1%Z.
Proof. exact (reroll_dice half all_rolls). Qed.

(** ** Particles in the box *)

Lemma Qfloor_unit (q : Q) : 0 <= q -> q < 1 -> Qfloor q = 0%Z.
Proof.
  intros H0 H1.
  assert (Hle := Qfloor_le q). assert (Hlt := Qlt_floor q).
  assert (A : (Qfloor q < 1)%Z)
    by (rewrite Zlt_Qlt; change (inject_Z 1) with 1; lra).
  assert (B : (0 < Qfloor q + 1)%Z)
    by (rewrite Zlt_Qlt; change (inject_Z 0) with 0; lra).
  lia.
Qed.

Lemma Qmod_small (x s : Q) : 0 <= x -> x < s -> Qmod x s == x.
Proof.
  intros H0 Hs. unfold Qmod.
  assert (Hpos : 0 < s) by lra.
  rewrite Qfloor_unit.
  - simpl. ring.
  - apply Qle_shift_div_l; lra.
  - apply Qlt_shift_div_r; lra.
Qed.

Lemma bounce_in_box (side_length x v : Q) :
  2 <= side_length ->
  let xv := bounce_high side_length (bounce_low (x, v)) in
  in_box side_length (fst xv) /\
  (snd xv == v \/ snd xv == - v) /\
  (in_box side_length x -> fst xv = x /\ snd xv = v).
Proof.
  intros Hs. unfold bounce_high, bounce_low, in_box. cbn [fst snd].
  destruct (Qlt_le_dec x (0 + 1)) as [Hlo|Hlo]; cbn [fst snd];
    destruct (Qlt_le_dec (side_length - 1) _) as [Hhi|Hhi]; cbn [fst snd];
    (split; [lra|split; [first [left; ring | right; ring | left; reflexivity]
                        | intros [? ?]; first [lra | split; reflexivity]]]).
Qed.

(** X17. In exact arithmetic and with a box side of at least 2, the
    position update leaves every particle at least one radius inside the
    box on both axes, and changes each velocity component at most in sign;
    on each axis along which the free flight stays in that region, the
    particle just moves by [velocity * time_step] and keeps its velocity
    component. *)
Theorem update_position_in_box (side_length time_step : Q) (p : particle) :
  2 <= side_length ->
  let p' := update_position side_length time_step p in
  in_box side_length (pos_x p') /\ in_box side_length (pos_y p') /\
  (vel_x p' == vel_x p \/ vel_x p' == - vel_x p) /\
  (vel_y p' == vel_y p \/ vel_y p' == - vel_y p) /\
  (in_box side_length (pos_x p + vel_x p * time_step) ->
   pos_x p' == pos_x p + vel_x p * time_step /\ vel_x p' = vel_x p) /\
  (in_box side_length (pos_y p + vel_y p * time_step) ->
   pos_y p' == pos_y p + vel_y p * time_step /\ vel_y p' = vel_y p).
Proof.
  intros Hs p'. unfold p', update_position. cbn [pos_x pos_y vel_x vel_y].
  destruct (bounce_in_box side_length (pos_x p + vel_x p * time_step) (vel_x p) Hs)
    as (Bx & Vx & Fx).
  destruct (bounce_in_box side_length (pos_y p + vel_y p * time_step) (vel_y p) Hs)
    as (By & Vy & Fy).
  cbv zeta in Bx, Vx, Fx, By, Vy, Fy.
  set (xv := bounce_high side_length
               (bounce_low (pos_x p + vel_x p * time_step, vel_x p))) in *.
  set (yv := bounce_high side_length
               (bounce_low (pos_y p + vel_y p * time_step, vel_y p))) in *.
  unfold in_box in *.
  assert (Mx : Qmod (fst xv) side_length == fst xv) by (apply Qmod_small; lra).
  assert (My : Qmod (fst yv) side_length == fst yv) by (apply Qmod_small; lra).
  rewrite Mx, My.
  split; [exact Bx|]. split; [exact By|]. split; [exact Vx|]. split; [exact Vy|].
  split.
  - intros Hfree. destruct (Fx Hfree) as [E1 E2]. rewrite E1.
    split; [reflexivity|exact E2].
  - intros Hfree. destruct (Fy Hfree) as [E1 E2]. rewrite E1.
    split; [reflexivity|exact E2].
Qed.

Lemma update_position_in_box_witness :
  let p' := update_position 8 (1 # 10) (Particle 3 4 (-2) 1) in
  in_box 8 (pos_x p') /\ in_box 8 (pos_y p') /\
  (vel_x p' == -2 \/ vel_x p' == - (-2)) /\
  (vel_y p' == 1 \/ vel_y p' == - (1)) /\
  (pos_x p' == 3 + -2 * (1 # 10) /\ vel_x p' = -2) /\
  (pos_y p' == 4 + 1 * (1 # 10) /\ vel_y p' = 1).
Proof.
  destruct (update_position_in_box 8 (1 # 10) (Particle 3 4 (-2) 1))
    as (Bx & By & Vx & Vy & Fx & Fy).
  - unfold Qle. simpl. lia.
  - split; [exact Bx|]. split; [exact By|]. split; [exact Vx|]. split; [exact Vy|].
    split.
    + apply Fx. unfold in_box, Qle. simpl. lia.
    + apply Fy. unfold in_box, Qle. simpl. lia.
Defined.


Lemma dice_convergence_pass_count_witness :
  (length [1; 2; 1; 6; 5; 3; 1; 4]%Z = (2 * 1 * 4)%nat ->
   exists s, dice_convergence_pass (2 * 1) [1; 2; 1; 6; 5; 3; 1; 4]%Z = Ok s /\
             length s = 1%nat /\ Forall (fun x => (3 <= x <= 18)%Z) s) /\
  (length [1; 2; 1; 6; 5; 3; 1; 4]%Z = ((2 * 1 + 1) * 4)%nat ->
   dice_convergence_pass (2 * 1 + 1) [1; 2; 1; 6; 5; 3; 1; 4]%Z = Raise ValueError).
Proof.
  apply (dice_convergence_pass_count 1 [1; 2; 1; 6; 5; 3; 1; 4]%Z).
  repeat constructor; unfold is_roll; lia.
Defined.

Lemma reroll_ones_witness :
  exists rerolled,
    reroll_loop (seq 0 4) [1; 2; 1; 6; 5; 3; 1; 4]%Z
      (py_slice [1; 2; 1; 6; 5; 3; 1; 4]%Z 0 4) 4 = Ok rerolled /\
    length rerolled = 4%nat /\
    Forall is_roll rerolled /\
    forall i, rerolled !! i = Some 1%Z ->
      [1; 2; 1; 6; 5; 3; 1; 4]%Z !! i = Some 1%Z
      /\ [1; 2; 1; 6; 5; 3; 1; 4]%Z !! (i + 4)%nat = Some 1%Z.
Proof.
  apply (reroll_ones 4 [1; 2; 1; 6; 5; 3; 1; 4]%Z).
  - reflexivity.
  - repeat constructor; unfold is_roll; lia.
Defined.

Lemma simulation_head_ready_witness :
  exists k',
    seq_stmt init_film make_noise (demo_kernel 2 3 5) = (Ok tt, k') /\
    layers_ready k' /\
    L k' = L (demo_kernel 2 3 5) /\ T k' = T (demo_kernel 2 3 5) /\
    v k' = v (demo_kernel 2 3 5) /\ l k' = l (demo_kernel 2 3 5).
Proof.
  apply (simulation_head_ready (demo_kernel 2 3 5)).
  - simpl. lia.
  - simpl. unfold Qle. simpl. lia.
Defined.
